(** * Firestore core: [EventListener] and [AsyncEventListener]

    A model of [Firestore/core/src/firebase/firestore/core/event_listener.h].

    The header declares a one-method listener interface, a listener backed by
    a callback, and a wrapper that hands every event to an executor and can be
    muted from any thread.  Its guarantees are about interleavings, so the
    method bodies are written here as sequences of the atomic operations they
    perform, threads run them one operation at a time, and a scheduler picks
    which thread moves next.  The semantics is a function: every scenario of
    the header can be evaluated. *)

From stdpp Require Import gmap list.

Abbreviation addr := positive (only parsing).
Abbreviation tid := nat (only parsing).
Abbreviation var := nat (only parsing).
Abbreviation executor_id := nat (only parsing).

Section event_listener.

(** [T] is the payload of the template, [Status] the error descriptor of
    [util/status_fwd.h]. *)
Context {T Status : Type}.

(** [util::StatusOr<T>]: a value or the error that replaced it. *)
Inductive StatusOr : Type :=
| ValueOk (value : T)
| StatusError (status : Status).

(** What user code can do to the listeners it knows: it reaches them through
    the [shared_ptr] variables of the application ([ListenerRegistration] and
    the like).  [UReset x] is [x.reset()]. *)
Inductive user_call : Type :=
| UMute (x : var)
| UOnEvent (x : var) (maybe_value : StatusOr)
| UReset (x : var).

(** [util::StatusOrCallback<T>], a [std::function<void(StatusOr<T>)>]: user
    code, given by the calls it makes for each argument. *)
Definition StatusOrCallback : Type := StatusOr → list user_call.

(** The lambda of [AsyncEventListener::OnEvent] with its two captures. *)
Record closure : Type := Closure {
  shared_this : addr;
  maybe_value : StatusOr;
}.

Inductive exn : Type := bad_weak_ptr.

(** Code of one thread, in continuation-passing style: each constructor is one
    atomic operation followed by the rest of the thread's work. *)
Inductive code : Type :=
| Return
| Throw (e : exn)
| Lock (a : addr) (k : code)
| Unlock (a : addr) (k : code)
| LoadMuted (a : addr) (k : bool → code)
| StoreMuted (a : addr) (b : bool) (k : code)
| SharedFromThis (a : addr) (k : addr → code)
| Execute (a : addr) (c : closure) (k : code)
| Release (a : addr) (k : code)
| DelegateOnEvent (a : addr) (v : StatusOr) (k : code)
| Invoke (f : StatusOrCallback) (v : StatusOr) (k : code)
| User (c : user_call) (k : code)
| DropClosure (k : code).

(** ** The listeners *)

(** [EventListener<T>] has one virtual method.  The header gives one leaf
    implementation, [CallbackEventListener]; any other leaf is user code as
    well, which is what the body of a callback stands for. *)
Inductive EventListener : Type :=
| CallbackEventListener (callback_ : StatusOrCallback).

Definition EventListener_Create (callback : StatusOrCallback) : EventListener :=
  CallbackEventListener callback.

(** [CallbackEventListener::OnEvent]: [callback_(std::move(maybe_value))]. *)
Definition CallbackEventListener_OnEvent
    (callback_ : StatusOrCallback) (maybe_value : StatusOr) (ret : code) : code :=
  Invoke callback_ maybe_value ret.

(** Virtual dispatch of [OnEvent] on an [EventListener<T>]. *)
Definition EventListener_OnEvent
    (l : EventListener) (maybe_value : StatusOr) (ret : code) : code :=
  match l with
  | CallbackEventListener callback_ =>
      CallbackEventListener_OnEvent callback_ maybe_value ret
  end.

(** [std::recursive_mutex]: the owning thread and how often it locked. *)
Record recursive_mutex : Type := Mutex {
  owner : option tid;
  depth : nat;
}.

(** [use_count] is the strong count of the control block that owns the object,
    [None] for an object no [shared_ptr] owns (the [weak_this] of
    [enable_shared_from_this] is then empty). *)
Record AsyncEventListener : Type := Listener {
  executor_ : executor_id;
  delegate_ : EventListener;
  mutex_ : recursive_mutex;
  muted_ : bool;
  use_count : option nat;
}.

(** The public constructor: [muted_ = false], the mutex free, and no owner. *)
Definition AsyncEventListener_new
    (executor : executor_id) (delegate : EventListener) : AsyncEventListener :=
  {| executor_ := executor; delegate_ := delegate;
     mutex_ := Mutex None 0; muted_ := false; use_count := None |}.

(** [AsyncEventListener::Mute]. *)
Definition AsyncEventListener_Mute (this : addr) (ret : code) : code :=
  Lock this (                         (* lock_guard lock(mutex_) *)
  StoreMuted this true (              (* muted_ = true *)
  Unlock this ret)).                  (* ~lock_guard *)

(** The body of the lambda submitted by [OnEvent]. *)
Definition closure_body (c : closure) (ret : code) : code :=
  Lock (shared_this c) (              (* lock_guard lock(shared_this->mutex_) *)
  LoadMuted (shared_this c) (λ muted,
    if negb muted then                (* if (!shared_this->muted_) *)
      DelegateOnEvent (shared_this c) (maybe_value c) (
      Unlock (shared_this c) ret)
    else
      Unlock (shared_this c) ret)).

(** [AsyncEventListener::OnEvent]. *)
Definition AsyncEventListener_OnEvent
    (this : addr) (maybe_value : StatusOr) (ret : code) : code :=
  SharedFromThis this (λ shared_this, (* shared_this = shared_from_this() *)
  Execute this (Closure shared_this maybe_value) (
                                      (* executor_->Execute([shared_this, maybe_value]{..}) *)
  Release shared_this ret)).          (* ~shared_ptr of the local *)

(** User code as thread code. *)
Definition user_code (cs : list user_call) (ret : code) : code :=
  foldr User ret cs.

(** ** The machine *)

Record thread : Type := Thread {
  pc : code;
  locals : list addr;          (* shared_ptr locals on this thread's stack *)
  job : option closure;        (* the closure an executor thread is running *)
}.

(** What is observed of a run: the calls of delegates and of callbacks, each
    with the calling thread and the argument. *)
Inductive event : Type :=
| EvDelegate (t : tid) (a : addr) (v : StatusOr)
| EvCallback (t : tid) (f : StatusOrCallback) (v : StatusOr).

Record state : Type := State {
  heap : gmap addr AsyncEventListener;      (* the objects that exist *)
  vars : list (option addr);                (* the application's shared_ptrs *)
  pending : list (executor_id * closure);   (* submitted, not yet started *)
  threads : list thread;
  log : list event;
}.

(** What ends a run: an access to an object that is gone, a call through an
    empty variable, the destruction of a pointer the thread does not have,
    the unlocking of a mutex the thread does not hold. *)
Inductive fault : Type :=
| UseAfterFree (a : addr)
| NullDeref (x : var)
| BadRelease
| BadUnlock (a : addr).

(** A step gives the next state, or the thread waits for a mutex, or there
    is nothing to run, or the run ends in a fault. *)
Inductive outcome : Type :=
| Next (σ : state)
| Blocked
| Idle
| Crash (f : fault).

Definition set_mutex (o : AsyncEventListener) (m : recursive_mutex) :=
  Listener (executor_ o) (delegate_ o) m (muted_ o) (use_count o).
Definition set_muted (o : AsyncEventListener) (b : bool) :=
  Listener (executor_ o) (delegate_ o) (mutex_ o) b (use_count o).
Definition set_use_count (o : AsyncEventListener) (n : nat) :=
  Listener (executor_ o) (delegate_ o) (mutex_ o) (muted_ o) (Some n).

Definition mutex_lock (t : tid) (m : recursive_mutex) : option recursive_mutex :=
  match owner m with
  | None => Some (Mutex (Some t) 1)
  | Some t' => if decide (t' = t) then Some (Mutex (Some t) (S (depth m))) else None
  end.

Definition mutex_unlock (t : tid) (m : recursive_mutex) : option recursive_mutex :=
  match owner m with
  | Some t' =>
      if decide (t' = t) then
        match depth m with
        | S (S d) => Some (Mutex (Some t) (S d))
        | _ => Some (Mutex None 0)
        end
      else None
  | None => None
  end.

(** Copying a [shared_ptr]: one more strong reference. *)
Definition acquire (a : addr) (h : gmap addr AsyncEventListener)
    : option (gmap addr AsyncEventListener) :=
  match h !! a with
  | Some o =>
      match use_count o with
      | Some n => Some (<[a := set_use_count o (S n)]> h)
      | None => None
      end
  | None => None
  end.

(** Destroying a [shared_ptr]: one strong reference less, and the object is
    destroyed with the last one. *)
Definition release (a : addr) (h : gmap addr AsyncEventListener)
    : option (gmap addr AsyncEventListener) :=
  match h !! a with
  | Some o =>
      match use_count o with
      | Some (S (S n)) => Some (<[a := set_use_count o (S n)]> h)
      | Some 1 => Some (delete a h)
      | _ => None
      end
  | None => None
  end.

(** Drop the first occurrence of [a]. *)
Fixpoint remove_one (a : addr) (l : list addr) : option (list addr) :=
  match l with
  | [] => None
  | b :: l' =>
      if decide (b = a) then Some l'
      else match remove_one a l' with
           | Some r => Some (b :: r)
           | None => None
           end
  end.

(** The state with thread [t] replaced by [th] and the objects by [h]. *)
Definition update (σ : state) (t : tid) (th : thread)
    (h : gmap addr AsyncEventListener) : state :=
  State h (vars σ) (pending σ) (<[t := th]> (threads σ)) (log σ).

(** The thread moves on to [k]. *)
Definition goto (th : thread) (k : code) : thread :=
  Thread k (locals th) (job th).

(** One atomic operation of thread [t]. *)
Definition run_thread (t : tid) (σ : state) : outcome :=
  match threads σ !! t with
  | None => Idle
  | Some th =>
      match pc th with
      | Return => Idle
      | Throw _ => Idle
      | Lock a k =>
          match heap σ !! a with
          | None => Crash (UseAfterFree a)
          | Some o =>
              match mutex_lock t (mutex_ o) with
              | Some m => Next (update σ t (goto th k) (<[a := set_mutex o m]> (heap σ)))
              | None => Blocked
              end
          end
      | Unlock a k =>
          match heap σ !! a with
          | None => Crash (UseAfterFree a)
          | Some o =>
              match mutex_unlock t (mutex_ o) with
              | Some m => Next (update σ t (goto th k) (<[a := set_mutex o m]> (heap σ)))
              | None => Crash (BadUnlock a)
              end
          end
      | LoadMuted a k =>
          match heap σ !! a with
          | None => Crash (UseAfterFree a)
          | Some o => Next (update σ t (goto th (k (muted_ o))) (heap σ))
          end
      | StoreMuted a b k =>
          match heap σ !! a with
          | None => Crash (UseAfterFree a)
          | Some o => Next (update σ t (goto th k) (<[a := set_muted o b]> (heap σ)))
          end
      | SharedFromThis a k =>
          match heap σ !! a with
          | None => Crash (UseAfterFree a)
          | Some o =>
              match use_count o with
              | None => Next (update σ t (goto th (Throw bad_weak_ptr)) (heap σ))
              | Some n =>
                  Next (update σ t (Thread (k a) (a :: locals th) (job th))
                          (<[a := set_use_count o (S n)]> (heap σ)))
              end
          end
      | Execute a c k =>
          match heap σ !! a with
          | None => Crash (UseAfterFree a)
          | Some o =>
              match acquire (shared_this c) (heap σ) with
              | None => Crash (UseAfterFree (shared_this c))
              | Some h =>
                  Next (State h (vars σ) (pending σ ++ [(executor_ o, c)])
                          (<[t := goto th k]> (threads σ)) (log σ))
              end
          end
      | Release a k =>
          match remove_one a (locals th) with
          | None => Crash BadRelease
          | Some l =>
              match release a (heap σ) with
              | None => Crash (UseAfterFree a)
              | Some h => Next (update σ t (Thread k l (job th)) h)
              end
          end
      | DelegateOnEvent a v k =>
          match heap σ !! a with
          | None => Crash (UseAfterFree a)
          | Some o =>
              Next (State (heap σ) (vars σ) (pending σ)
                      (<[t := goto th (EventListener_OnEvent (delegate_ o) v k)]> (threads σ))
                      (log σ ++ [EvDelegate t a v]))
          end
      | Invoke f v k =>
          Next (State (heap σ) (vars σ) (pending σ)
                  (<[t := goto th (user_code (f v) k)]> (threads σ))
                  (log σ ++ [EvCallback t f v]))
      | User (UMute x) k =>
          match vars σ !! x with
          | Some (Some a) => Next (update σ t (goto th (AsyncEventListener_Mute a k)) (heap σ))
          | _ => Crash (NullDeref x)
          end
      | User (UOnEvent x v) k =>
          match vars σ !! x with
          | Some (Some a) =>
              Next (update σ t (goto th (AsyncEventListener_OnEvent a v k)) (heap σ))
          | _ => Crash (NullDeref x)
          end
      | User (UReset x) k =>
          match vars σ !! x with
          | Some (Some a) =>
              match release a (heap σ) with
              | None => Crash (UseAfterFree a)
              | Some h =>
                  Next (State h (<[x := None]> (vars σ)) (pending σ)
                          (<[t := goto th k]> (threads σ)) (log σ))
              end
          | _ => Next (update σ t (goto th k) (heap σ))
          end
      | DropClosure k =>
          match job th with
          | None => Crash BadRelease
          | Some c =>
              match release (shared_this c) (heap σ) with
              | None => Crash (UseAfterFree (shared_this c))
              | Some h => Next (update σ t (Thread k (locals th) None) h)
              end
          end
      end
  end.

(** Modelled from the spec: [util::Executor] (its header is not part of the
    sources at hand).  [Execute] only schedules the task for later; when and
    on which thread a pending task starts is the executor's business, so any
    pending task may start at any time, on a thread of its own.  The executor
    owns the closure while it runs and destroys it afterwards. *)
Definition dispatch (i : nat) (σ : state) : outcome :=
  match pending σ !! i with
  | None => Idle
  | Some (_, c) =>
      Next (State (heap σ) (vars σ) (delete i (pending σ))
              (threads σ ++ [Thread (closure_body c (DropClosure Return)) [] (Some c)])
              (log σ))
  end.

Inductive sched : Type :=
| Run (t : tid)
| Dispatch (i : nat).

Definition step (s : sched) (σ : state) : outcome :=
  match s with
  | Run t => run_thread t σ
  | Dispatch i => dispatch i σ
  end.

Fixpoint exec (ss : list sched) (σ : state) : outcome :=
  match ss with
  | [] => Next σ
  | s :: ss' =>
      match step s σ with
      | Next σ' => exec ss' σ'
      | r => r
      end
  end.

(** [AsyncEventListener::Create]: [make_shared] at the address [a] the
    allocator chose, the returned pointer stored in a new variable of the
    application. *)
Definition AsyncEventListener_Create
    (a : addr) (executor : executor_id) (delegate : EventListener) (σ : state) : state :=
  State (<[a := set_use_count (AsyncEventListener_new executor delegate) 1]> (heap σ))
        (vars σ ++ [Some a]) (pending σ) (threads σ) (log σ).

(** A client thread about to run user code. *)
Definition spawn (cs : list user_call) (σ : state) : state :=
  State (heap σ) (vars σ) (pending σ)
        (threads σ ++ [Thread (user_code cs Return) [] None]) (log σ).

Definition empty_state : state := State ∅ [] [] [] [].

(** The state in which thread [t] is about to run [k]. *)
Definition set_pc (t : tid) (k : code) (σ : state) : state :=
  match threads σ !! t with
  | Some th => State (heap σ) (vars σ) (pending σ) (<[t := goto th k]> (threads σ)) (log σ)
  | None => σ
  end.

(** ** Well-formed thread code *)

(** How often [a] occurs in a list of addresses. *)
Fixpoint occ (a : addr) (l : list addr) : nat :=
  match l with
  | [] => 0
  | b :: l' => (if decide (b = a) then 1 else 0) + occ a l'
  end.

(** [wf L R J k]: the code [k] of a thread that holds the locks [L] and the
    local strong references [R] (innermost first) and runs the closure [J]
    - releases the locks and the references in order, and destroys the
      closure before it returns;
    - writes [muted_] only to [true] and only under the object's lock;
    - calls a delegate only as the [false] branch of a read of [muted_] made
      under the object's lock, and then the delegate of the object of its
      closure, with the result in its closure;
    - submits a closure only on an object it holds a reference to. *)
Inductive wf : list addr → list addr → option closure → code → Prop :=
| wf_Return : wf [] [] None Return
| wf_Throw L R J e : wf L R J (Throw e)
| wf_Lock L R J a k : wf (a :: L) R J k → wf L R J (Lock a k)
| wf_Unlock L R J a k : wf L R J k → wf (a :: L) R J (Unlock a k)
| wf_LoadMuted L R c k k' :
    shared_this c ∈ L →
    k false = DelegateOnEvent (shared_this c) (maybe_value c) k' →
    wf L R (Some c) k' → wf L R (Some c) (k true) →
    wf L R (Some c) (LoadMuted (shared_this c) k)
| wf_StoreMuted L R J a k : a ∈ L → wf L R J k → wf L R J (StoreMuted a true k)
| wf_SharedFromThis L R J a k :
    wf L (a :: R) J (k a) → wf L R J (SharedFromThis a k)
| wf_Execute L R J a c k :
    a ∈ R → shared_this c ∈ R → wf L R J k → wf L R J (Execute a c k)
| wf_Release L R J a k : wf L R J k → wf L (a :: R) J (Release a k)
| wf_Invoke L R J f v k : wf L R J k → wf L R J (Invoke f v k)
| wf_User L R J c k : wf L R J k → wf L R J (User c k)
| wf_DropClosure L R c k : wf L R None k → wf L R (Some c) (DropClosure k).

(** The code a thread is at: well-formed, or about to call the delegate of
    the object of its closure, which it has locked and has just seen not
    muted. *)
Definition wf_top (h : gmap addr AsyncEventListener)
    (L R : list addr) (J : option closure) (p : code) : Prop :=
  wf L R J p ∨
  ∃ c k, p = DelegateOnEvent (shared_this c) (maybe_value c) k ∧ J = Some c ∧
         shared_this c ∈ L ∧ wf L R J k ∧
         ∀ o, h !! shared_this c = Some o → muted_ o = false.

(** What thread [t] sees of a mutex: how often it holds it. *)
Definition lockview (t : tid) (o : AsyncEventListener) : nat :=
  if decide (owner (mutex_ o) = Some t) then depth (mutex_ o) else 0.

Definition held (h : gmap addr AsyncEventListener) (t : tid) (L : list addr) : Prop :=
  ∀ a o, h !! a = Some o → occ a L = lockview t o.

Definition owners_bound (h : gmap addr AsyncEventListener) (n : nat) : Prop :=
  ∀ a o t, h !! a = Some o → owner (mutex_ o) = Some t → t < n.

Definition locks_inv (σ : state) : Prop :=
  owners_bound (heap σ) (length (threads σ)) ∧
  ∀ t th, threads σ !! t = Some th →
    ∃ L, wf_top (heap σ) L (locals th) (job th) (pc th) ∧ held (heap σ) t L.

(** What a step of another thread may do to the objects as thread [t] sees
    them: no new object, no change to the locks [t] holds, nor to [muted_]
    under a lock of [t]. *)
Definition frame (t : tid) (h h' : gmap addr AsyncEventListener) : Prop :=
  ∀ a o', h' !! a = Some o' →
    ∃ o, h !! a = Some o ∧ lockview t o' = lockview t o ∧
         (owner (mutex_ o) = Some t → muted_ o' = muted_ o).

(** ** Reference counts *)

Definition var_refs (a : addr) (vs : list (option addr)) : nat :=
  sum_list_with (λ v, match v with
                      | Some b => if decide (b = a) then 1 else 0
                      | None => 0
                      end) vs.

Definition closure_refs (a : addr) (c : closure) : nat :=
  if decide (shared_this c = a) then 1 else 0.

Definition pending_refs (a : addr) (ps : list (executor_id * closure)) : nat :=
  sum_list_with (λ p, closure_refs a (snd p)) ps.

Definition thread_refs (a : addr) (th : thread) : nat :=
  occ a (locals th) + from_option (closure_refs a) 0 (job th).

Definition threads_refs (a : addr) (ths : list thread) : nat :=
  sum_list_with (thread_refs a) ths.

(** All the strong references to [a] there are. *)
Definition holders (a : addr) (σ : state) : nat :=
  var_refs a (vars σ) + pending_refs a (pending σ) + threads_refs a (threads σ).

(** The strong count the control block of [a] shows. *)
Definition strong (h : gmap addr AsyncEventListener) (a : addr) : nat :=
  match h !! a with
  | Some o => default 0 (use_count o)
  | None => 0
  end.

Definition refs_inv (σ : state) : Prop :=
  (∀ a, holders a σ = strong (heap σ) a) ∧
  (∀ a o, heap σ !! a = Some o → use_count o ≠ Some 0).

(** ** Initial states *)

Fixpoint is_user_code (k : code) : bool :=
  match k with
  | Return => true
  | User _ k' => is_user_code k'
  | _ => false
  end.

Definition fresh_thread (th : thread) : bool :=
  is_user_code (pc th) &&
  match locals th, job th with [], None => true | _, _ => false end.

Definition fresh_object (vs : list (option addr)) (ao : addr * AsyncEventListener) : bool :=
  match owner (mutex_ (snd ao)), depth (mutex_ (snd ao)), use_count (snd ao) with
  | None, 0, Some (S n) => bool_decide (S n = var_refs (fst ao) vs)
  | None, 0, None => bool_decide (var_refs (fst ao) vs = 0)
  | _, _, _ => false
  end.

(** Nothing submitted yet, client threads about to run user code, every mutex
    free, every variable pointing to an object, and every object counting the
    variables that point to it. *)
Definition initial (σ : state) : bool :=
  match pending σ with [] => true | _ => false end &&
  forallb fresh_thread (threads σ) &&
  forallb (fresh_object (vars σ)) (map_to_list (heap σ)) &&
  forallb (λ v, match v with
                | Some a => bool_decide (is_Some (heap σ !! a))
                | None => true
                end) (vars σ).

(** Thread [t] may take the mutex: it is free, or [t] holds it already. *)
Definition available (t : tid) (m : recursive_mutex) : Prop :=
  m = Mutex None 0 ∨ (owner m = Some t ∧ 0 < depth m).

(** [same_locks h h']: from [h] to [h'] objects may have gone and strong
    counts may have changed, nothing else. *)
Definition same_locks (h h' : gmap addr AsyncEventListener) : Prop :=
  ∀ a o', h' !! a = Some o' →
    ∃ o, h !! a = Some o ∧ mutex_ o' = mutex_ o ∧ muted_ o' = muted_ o ∧
         executor_ o' = executor_ o ∧ delegate_ o' = delegate_ o.

Definition nonzero (h : gmap addr AsyncEventListener) : Prop :=
  ∀ a o, h !! a = Some o → use_count o ≠ Some 0.

(** Objects are never created by a step, [executor_] and [delegate_] never
    change, and a set [muted_] stays set. *)
Definition heap_mono (h h' : gmap addr AsyncEventListener) : Prop :=
  ∀ a o', h' !! a = Some o' →
    ∃ o, h !! a = Some o ∧ (muted_ o = true → muted_ o' = true) ∧
         executor_ o' = executor_ o ∧ delegate_ o' = delegate_ o.

Definition muted_or_gone (a : addr) (σ : state) : Prop :=
  ∀ o, heap σ !! a = Some o → muted_ o = true.

Definition run (t : tid) (n : nat) : list sched := replicate n (Run t).

(** ** Scenarios *)

(** One listener at address 1, made by [Create] on executor 0 around the
    callback [f] and held by variable 0, and one client thread about to run
    [cs]. *)
Definition scenario (f : StatusOrCallback) (cs : list user_call) : state :=
  spawn cs (AsyncEventListener_Create 1%positive 0 (EventListener_Create f) empty_state).

(** One object at address 1 as the public constructor leaves it, and one
    thread about to run [k]. *)
Definition bare (f : StatusOrCallback) (k : code) : state :=
  State {[ 1%positive := AsyncEventListener_new 0 (EventListener_Create f) ]}
        [] [] [Thread k [] None] [].

(** A callback that leaves the listeners alone, and one that mutes the
    listener of variable 0 ([ListenerRegistration::Remove] from user code). *)
Definition quiet_callback : StatusOrCallback := λ _, [].
Definition unsubscribing_callback : StatusOrCallback := λ _, [UMute 0].

(** The state a schedule leads to (the state itself when it does not run). *)
Definition after (ss : list sched) (σ : state) : state :=
  match exec ss σ with
  | Next σ' => σ'
  | _ => σ
  end.

(** How often the delegate of [a] was called with [v], for a test on [v]. *)
Definition delegate_calls (a : addr) (l : list event) : list (tid * StatusOr) :=
  omap (λ e, match e with
             | EvDelegate t b v => if decide (b = a) then Some (t, v) else None
             | EvCallback _ _ _ => None
             end) l.

(** ** More to observe *)

(** A mutex that has an owner is held at least once. *)
Definition mutex_sane (h : gmap addr AsyncEventListener) : Prop :=
  ∀ a o t, h !! a = Some o → owner (mutex_ o) = Some t → 0 < depth (mutex_ o).

(** How many operations of thread [t] a schedule holds. *)
Fixpoint steps_of (t : tid) (ss : list sched) : nat :=
  match ss with
  | [] => 0
  | Run t' :: ss' => (if decide (t' = t) then 1 else 0) + steps_of t ss'
  | Dispatch _ :: ss' => steps_of t ss'
  end.

(** The [lock_guard]s the code is inside of, innermost first: the mutexes it
    gives back without having taken them. *)
Fixpoint owed (p : code) : list addr :=
  match p with
  | Return | Throw _ => []
  | Lock _ k => tail (owed k)
  | Unlock a k => a :: owed k
  | LoadMuted _ k => owed (k true)
  | SharedFromThis a k => owed (k a)
  | StoreMuted _ _ k | Execute _ _ k | Release _ k | DelegateOnEvent _ _ k
  | Invoke _ _ k | User _ k | DropClosure k => owed k
  end.

(** The thread is in what the header puts under the mutex of [a]: inside a
    [lock_guard] on it, which takes in the whole call of the delegate with
    the callback and all the user code it runs, or at a read or a write of
    [muted_] or at the call of the delegate itself. *)
Definition in_critical (a : addr) (p : code) : bool :=
  bool_decide (a ∈ owed p) ||
  match p with
  | Unlock b _ | LoadMuted b _ | StoreMuted b _ _ | DelegateOnEvent b _ _ =>
      bool_decide (b = a)
  | _ => false
  end.

(** How many delegate calls the code can still make, at most. *)
Fixpoint deliveries (p : code) : nat :=
  match p with
  | Return | Throw _ => 0
  | LoadMuted _ k => deliveries (k true) `max` deliveries (k false)
  | SharedFromThis a k => deliveries (k a)
  | DelegateOnEvent _ _ k => S (deliveries k)
  | Lock _ k | Unlock _ k | StoreMuted _ _ k | Execute _ _ k | Release _ k
  | Invoke _ _ k | User _ k | DropClosure k => deliveries k
  end.

(** How many delegate calls thread [t] has made. *)
Definition calls_by (t : tid) (l : list event) : nat :=
  sum_list_with (λ e, match e with
                      | EvDelegate t' _ _ => if decide (t' = t) then 1 else 0
                      | EvCallback _ _ _ => 0
                      end) l.

Definition once_inv (σ : state) : Prop :=
  (∀ t th, threads σ !! t = Some th → calls_by t (log σ) + deliveries (pc th) ≤ 1) ∧
  (∀ t, length (threads σ) ≤ t → calls_by t (log σ) = 0).

(** A serial executor: it starts the oldest pending task on thread [t], gives
    it the six operations of a delivery, and goes on with the next task on
    the next thread, [n] times. *)
Fixpoint serial (t : tid) (n : nat) : list sched :=
  match n with
  | 0 => []
  | S n' => Dispatch 0 :: run t 6 ++ serial (S t) n'
  end.

(** The results the delegate of [a] was given, in the order of the calls. *)
Definition delivered (a : addr) (l : list event) : list StatusOr :=
  snd <$> delegate_calls a l.

(** No call of a callback is left in the code. *)
Fixpoint no_invoke (p : code) : Prop :=
  match p with
  | Return | Throw _ => True
  | LoadMuted _ k => no_invoke (k true) ∧ no_invoke (k false)
  | SharedFromThis a k => no_invoke (k a)
  | Invoke _ _ _ => False
  | Lock _ k | Unlock _ k | StoreMuted _ _ k | Execute _ _ k | Release _ k
  | DelegateOnEvent _ _ k | User _ k | DropClosure k => no_invoke k
  end.

(** A thread has no call of a callback ahead but through a delegate, or it is
    at the call of the callback of the listener of its closure, with the
    result in its closure, holds the mutex of that listener, and the listener
    is not muted. *)
Definition invoking (σ : state) (t : tid) (th : thread) : Prop :=
  no_invoke (pc th) ∨
  ∃ f k c o, pc th = Invoke f (maybe_value c) k ∧ no_invoke k ∧
             job th = Some c ∧ heap σ !! shared_this c = Some o ∧
             delegate_ o = CallbackEventListener f ∧
             owner (mutex_ o) = Some t ∧ muted_ o = false.

Definition callback_inv (σ : state) : Prop :=
  ∀ t th, threads σ !! t = Some th → invoking σ t th.

(** ** Proof tactics *)

Ltac wf_head Hw Hpc :=
  try rewrite Hpc in Hw;
  destruct Hw as [Hw | (? & ? & ? & ? & ? & ? & ?)]; [inversion Hw; subst | simplify_eq].

Ltac run_step :=
  unfold step, run_thread; simpl;
  rewrite ?list_lookup_insert_eq by (rewrite ?length_insert; done);
  simpl; rewrite ?lookup_insert_eq; simpl;
  rewrite ?list_insert_insert_eq, ?insert_insert_eq.

Ltac run_done :=
  unfold update, goto; simpl;
  rewrite ?insert_insert_eq, ?list_insert_insert_eq; done.

(** ** Basic facts *)

Lemma occ_elem a L : a ∈ L ↔ 0 < occ a L.
Proof.
  induction L as [|b L IH]; simpl.
  - split; [by intros ?%elem_of_nil | lia].
  - rewrite elem_of_cons, IH. destruct (decide (b = a)); subst; intuition lia.
Qed.

Lemma wf_Mute L R J a k : wf L R J k → wf L R J (AsyncEventListener_Mute a k).
Proof.
  intros H. unfold AsyncEventListener_Mute.
  apply wf_Lock, wf_StoreMuted; [apply elem_of_cons; by left|].
  by apply wf_Unlock.
Qed.

Lemma wf_OnEvent L R J a v k :
  wf L R J k → wf L R J (AsyncEventListener_OnEvent a v k).
Proof.
  intros H. unfold AsyncEventListener_OnEvent.
  apply wf_SharedFromThis, wf_Execute; simpl; try (apply elem_of_cons; by left).
  by apply wf_Release.
Qed.

Lemma wf_user_code L R J cs k : wf L R J k → wf L R J (user_code cs k).
Proof. intros H. induction cs; simpl; [done | by apply wf_User]. Qed.

Lemma wf_EventListener_OnEvent L R J d v k :
  wf L R J k → wf L R J (EventListener_OnEvent d v k).
Proof. intros H. destruct d. by apply wf_Invoke. Qed.

Lemma wf_closure_body L R c k :
  wf L R (Some c) k → wf L R (Some c) (closure_body c k).
Proof.
  intros H. unfold closure_body. apply wf_Lock.
  eapply wf_LoadMuted; simpl; [apply elem_of_cons; by left | done | |];
    by apply wf_Unlock.
Qed.

Lemma wf_is_user_code k : is_user_code k = true → wf [] [] None k.
Proof.
  induction k; simpl; try done; intros H.
  - apply wf_Return.
  - apply wf_User; auto.
Qed.

Lemma same_locks_refl h : same_locks h h.
Proof. intros a o H. eauto 10. Qed.

Lemma same_locks_insert h a o n :
  h !! a = Some o → same_locks h (<[a := set_use_count o n]> h).
Proof.
  intros Ha b ob Hl. destruct (decide (a = b)) as [->|Hne].
  - rewrite lookup_insert_eq in Hl. simplify_eq. eauto 10.
  - rewrite lookup_insert_ne in Hl by done. eauto 10.
Qed.

Lemma same_locks_delete h a : same_locks h (delete a h).
Proof.
  intros b ob Hl. apply lookup_delete_Some in Hl as [_ Hl]. eauto 10.
Qed.

Lemma same_locks_acquire h a h' : acquire a h = Some h' → same_locks h h'.
Proof.
  unfold acquire. intros H. repeat case_match; simplify_eq.
  by eapply same_locks_insert.
Qed.

Lemma same_locks_release h a h' : release a h = Some h' → same_locks h h'.
Proof.
  unfold release. intros H. repeat case_match; simplify_eq;
    [apply same_locks_delete | by eapply same_locks_insert].
Qed.

Lemma same_locks_frame t h h' : same_locks h h' → frame t h h'.
Proof.
  intros H a o' Hl. destruct (H a o' Hl) as (o & ? & Hm & Hb & _).
  exists o. unfold lockview. rewrite Hm. auto.
Qed.

Lemma frame_insert t h a o o' :
  h !! a = Some o → lockview t o' = lockview t o →
  (owner (mutex_ o) = Some t → muted_ o' = muted_ o) →
  frame t h (<[a := o']> h).
Proof.
  intros Ha Hv Hb b ob Hl. destruct (decide (a = b)) as [->|Hne].
  - rewrite lookup_insert_eq in Hl. simplify_eq. eauto.
  - rewrite lookup_insert_ne in Hl by done. eauto.
Qed.

Lemma frame_held t h h' L : frame t h h' → held h t L → held h' t L.
Proof.
  intros Hf Hh a o' Hl. destruct (Hf a o' Hl) as (o & Ho & -> & _). eauto.
Qed.

Lemma held_owner h t L a o :
  held h t L → a ∈ L → h !! a = Some o →
  owner (mutex_ o) = Some t ∧ 0 < depth (mutex_ o).
Proof.
  intros Hh Ha%occ_elem Ho. rewrite (Hh a o Ho) in Ha.
  unfold lockview in Ha. case_decide; [done | lia].
Qed.

Lemma frame_wf_top t h h' L R J p :
  frame t h h' → held h t L → wf_top h L R J p → wf_top h' L R J p.
Proof.
  intros Hf Hh [Hw | (c & k & -> & HJ & Ha & Hk & Hm)]; [by left | right].
  exists c, k. repeat split; try done. intros o' Hl.
  destruct (Hf _ o' Hl) as (o & Ho & _ & Hb).
  destruct (held_owner _ _ _ _ _ Hh Ha Ho) as [Hown _].
  rewrite Hb by done. auto.
Qed.

Lemma held_insert h t L L' a o' :
  held h t L → (∀ b, b ≠ a → occ b L' = occ b L) →
  occ a L' = lockview t o' → held (<[a := o']> h) t L'.
Proof.
  intros Hh Hne Ha b ob Hl. destruct (decide (a = b)) as [->|Hab].
  - rewrite lookup_insert_eq in Hl. by simplify_eq.
  - rewrite lookup_insert_ne in Hl by done. rewrite Hne by done. eauto.
Qed.

Lemma owners_bound_insert h n a o' :
  owners_bound h n → (∀ t, owner (mutex_ o') = Some t → t < n) →
  owners_bound (<[a := o']> h) n.
Proof.
  intros Hb Ho b ob t Hl Hown. destruct (decide (a = b)) as [->|Hab].
  - rewrite lookup_insert_eq in Hl. simplify_eq. auto.
  - rewrite lookup_insert_ne in Hl by done. eauto.
Qed.

Lemma owners_bound_same h h' n :
  same_locks h h' → owners_bound h n → owners_bound h' n.
Proof.
  intros Hs Hb a o' t Hl Hown. destruct (Hs a o' Hl) as (o & Ho & Hm & _).
  rewrite Hm in Hown. eauto.
Qed.

Lemma locks_update σ t th th' h' vs ps lg L' :
  locks_inv σ → threads σ !! t = Some th →
  (∀ t', t' ≠ t → frame t' (heap σ) h') →
  owners_bound h' (length (threads σ)) →
  wf_top h' L' (locals th') (job th') (pc th') → held h' t L' →
  locks_inv (State h' vs ps (<[t := th']> (threads σ)) lg).
Proof.
  intros [Hb Hts] Hth Hf Hb' Hw Hh. split; simpl.
  - by rewrite length_insert.
  - intros t0 th0 Hl. apply list_lookup_insert_Some in Hl as [(-> & -> & _) | [Hne Hl]].
    + eauto.
    + destruct (Hts t0 th0 Hl) as (L & HwL & HhL). exists L.
      split; [eapply frame_wf_top | eapply frame_held]; eauto.
Qed.

Lemma locks_update_same σ t th th' h' vs ps lg :
  locks_inv σ → threads σ !! t = Some th → same_locks (heap σ) h' →
  (∀ L, wf_top (heap σ) L (locals th) (job th) (pc th) →
        wf L (locals th') (job th') (pc th')) →
  locks_inv (State h' vs ps (<[t := th']> (threads σ)) lg).
Proof.
  intros Hinv Hth Hs Hw. destruct (Hinv) as [Hb Hts].
  destruct (Hts t th Hth) as (L & HwL & HhL).
  eapply (locks_update _ _ _ _ _ _ _ _ L); eauto.
  - intros. by apply same_locks_frame.
  - by eapply owners_bound_same.
  - left. auto.
  - eapply frame_held; [by apply same_locks_frame | done].
Qed.

(** ** The locking discipline is kept by every step *)

Lemma locks_run_thread t σ σ' :
  locks_inv σ → run_thread t σ = Next σ' → locks_inv σ'.
Proof.
  intros Hinv Hstep. unfold run_thread in Hstep.
  destruct (threads σ !! t) as [th|] eqn:Hth; [|done].
  destruct Hinv as [Hb Hts]. destruct (Hts t th Hth) as (L & Hw & Hh).
  assert (Hlt : t < length (threads σ)) by (by eapply lookup_lt_Some).
  assert (Hinv : locks_inv σ) by (by split).
  destruct (pc th) as [| |a k|a k|a k|a b k|a k|a c k|a k|a v k|f v k|[x|x v|x] k|k] eqn:Hpc;
    try done.
  - (* Lock *)
    destruct (heap σ !! a) as [o|] eqn:Ho; [|done].
    destruct (mutex_lock t (mutex_ o)) as [m|] eqn:Hm; simplify_eq.
    wf_head Hw Hpc.
    assert (Hv : lockview t (set_mutex o m) = S (lockview t o) ∧
                 ∀ t', t' ≠ t → lockview t' (set_mutex o m) = lockview t' o).
    { unfold mutex_lock in Hm. unfold lockview; simpl.
      destruct (owner (mutex_ o)) as [t0|] eqn:Hown;
        repeat case_decide; simplify_eq; simpl; (split; [done|]);
        intros; repeat case_decide; by simplify_eq. }
    destruct Hv as [Hv1 Hv2].
    eapply (locks_update _ _ _ _ _ _ _ _ (a :: L)); eauto; simpl.
    + intros t' Hne. eapply frame_insert; eauto.
    + apply owners_bound_insert; [done|]. simpl. intros t0 Hown.
      unfold mutex_lock in Hm. repeat case_match; simplify_eq; simpl in *; by simplify_eq.
    + by left.
    + eapply held_insert; eauto.
      * intros b Hne. simpl. by rewrite decide_False.
      * simpl. rewrite decide_True by done. rewrite Hv1, (Hh a o Ho). done.
  - (* Unlock *)
    destruct (heap σ !! a) as [o|] eqn:Ho; [|done].
    destruct (mutex_unlock t (mutex_ o)) as [m|] eqn:Hm; simplify_eq.
    wf_head Hw Hpc.
    match goal with H : wf _ _ _ k |- _ => rename H into Hk end.
    pose proof (Hh a o Ho) as Hocc. simpl in Hocc. rewrite decide_True in Hocc by done.
    assert (Hv : S (lockview t (set_mutex o m)) = lockview t o ∧
                 ∀ t', t' ≠ t → lockview t' (set_mutex o m) = lockview t' o).
    { unfold mutex_unlock in Hm. unfold lockview in *; simpl.
      destruct (owner (mutex_ o)) as [t0|] eqn:Hown; [|done].
      destruct (depth (mutex_ o)) as [|[|d]] eqn:Hd;
        repeat case_decide; simplify_eq; simpl; (split; [done|]);
        intros; repeat case_decide; by simplify_eq. }
    destruct Hv as [Hv1 Hv2].
    eapply locks_update; eauto; simpl.
    + intros t' Hne. eapply frame_insert; eauto.
    + apply owners_bound_insert; [done|]. simpl. intros t0 Hown.
      unfold mutex_unlock in Hm. repeat case_match; simplify_eq; simpl in *; by simplify_eq.
    + left. exact Hk.
    + eapply held_insert; eauto.
      * intros b Hne. simpl. by rewrite decide_False.
      * lia.
  - (* LoadMuted *)
    destruct (heap σ !! a) as [o|] eqn:Ho; simplify_eq.
    wf_head Hw Hpc.
    eapply (locks_update _ _ _ _ _ _ _ _ L); eauto; simpl.
    + intros. apply same_locks_frame, same_locks_refl.
    + destruct (muted_ o) eqn:Hmu; [left; congruence | right].
      match goal with H : k false = _ |- _ => rewrite H end.
      do 2 eexists. repeat split; eauto; congruence.
  - (* StoreMuted *)
    destruct (heap σ !! a) as [o|] eqn:Ho; simplify_eq.
    wf_head Hw Hpc.
    match goal with H : a ∈ L |- _ => rename H into Ha end.
    destruct (held_owner _ _ _ _ _ Hh Ha Ho) as [Hown _].
    eapply (locks_update _ _ _ _ _ _ _ _ L); eauto; simpl.
    + intros t' Hne. eapply frame_insert; eauto.
      rewrite Hown. intros ?; by simplify_eq.
    + apply owners_bound_insert; [done|]. simpl. eauto.
    + by left.
    + eapply held_insert; eauto. rewrite (Hh a o Ho). done.
  - (* SharedFromThis *)
    destruct (heap σ !! a) as [o|] eqn:Ho; [|done].
    destruct (use_count o) as [n|] eqn:Hn; simplify_eq.
    + eapply locks_update_same; eauto.
      * by eapply same_locks_insert.
      * intros L' Hw'. simpl. wf_head Hw' Hpc. done.
    + eapply locks_update_same; eauto using same_locks_refl.
      intros. simpl. apply wf_Throw.
  - (* Execute *)
    destruct (heap σ !! a) as [o|] eqn:Ho; [|done].
    destruct (acquire (shared_this c) (heap σ)) as [h|] eqn:Hacq; simplify_eq.
    eapply locks_update_same; eauto using same_locks_acquire.
    intros L' Hw'. simpl. wf_head Hw' Hpc. done.
  - (* Release *)
    destruct (remove_one a (locals th)) as [l|] eqn:Hrm; [|done].
    destruct (release a (heap σ)) as [h|] eqn:Hrel; simplify_eq.
    eapply locks_update_same; eauto using same_locks_release.
    intros L' Hw'. simpl. wf_head Hw' Hpc.
    match goal with H : _ :: _ = locals th |- _ => rewrite <- H in Hrm end.
    simpl in Hrm. rewrite decide_True in Hrm by done. by simplify_eq.
  - (* DelegateOnEvent *)
    destruct (heap σ !! a) as [o|] eqn:Ho; simplify_eq.
    eapply locks_update_same; eauto using same_locks_refl.
    intros L' Hw'. simpl. wf_head Hw' Hpc. by apply wf_EventListener_OnEvent.
  - (* Invoke *)
    simplify_eq.
    eapply locks_update_same; eauto using same_locks_refl.
    intros L' Hw'. simpl. wf_head Hw' Hpc. by apply wf_user_code.
  - (* x->Mute() *)
    destruct (vars σ !! x) as [[a|]|]; simplify_eq.
    eapply locks_update_same; eauto using same_locks_refl.
    intros L' Hw'. simpl. wf_head Hw' Hpc. by apply wf_Mute.
  - (* x->OnEvent(v) *)
    destruct (vars σ !! x) as [[a|]|]; simplify_eq.
    eapply locks_update_same; eauto using same_locks_refl.
    intros L' Hw'. simpl. wf_head Hw' Hpc. by apply wf_OnEvent.
  - (* x.reset() *)
    destruct (vars σ !! x) as [[a|]|].
    + destruct (release a (heap σ)) as [h|] eqn:Hrel; simplify_eq.
      eapply locks_update_same; eauto using same_locks_release.
      intros L' Hw'. simpl. wf_head Hw' Hpc. done.
    + simplify_eq. eapply locks_update_same; eauto using same_locks_refl.
      intros L' Hw'. simpl. wf_head Hw' Hpc. done.
    + simplify_eq. eapply locks_update_same; eauto using same_locks_refl.
      intros L' Hw'. simpl. wf_head Hw' Hpc. done.
  - (* DropClosure *)
    destruct (job th) as [c|] eqn:Hjob; [|done].
    destruct (release (shared_this c) (heap σ)) as [h|] eqn:Hrel; simplify_eq.
    eapply locks_update_same; eauto using same_locks_release.
    intros L' Hw'. simpl. wf_head Hw' Hpc. done.
Qed.

Lemma locks_dispatch i σ σ' :
  locks_inv σ → dispatch i σ = Next σ' → locks_inv σ'.
Proof.
  intros [Hb Hts] Hstep. unfold dispatch in Hstep.
  destruct (pending σ !! i) as [[e c]|]; simplify_eq.
  split; simpl.
  - rewrite length_app. simpl. intros a o t Ho Hown.
    specialize (Hb a o t Ho Hown). lia.
  - intros t th Hl. apply lookup_app_Some in Hl as [Hl | [Hge Hl]]; [eauto|].
    apply list_lookup_singleton_Some in Hl as [Ht <-].
    exists []. split.
    + left. simpl. apply wf_closure_body, wf_DropClosure, wf_Return.
    + intros a o Ho. simpl. unfold lockview.
      rewrite decide_False; [done|]. intros Hown.
      specialize (Hb a o t Ho Hown). lia.
Qed.

Lemma locks_step s σ σ' : locks_inv σ → step s σ = Next σ' → locks_inv σ'.
Proof. destruct s; [apply locks_run_thread | apply locks_dispatch]. Qed.

(** ** The strong counts are kept by every step *)

Lemma sum_list_with_insert {A} (f : A → nat) (l : list A) i x y :
  l !! i = Some x →
  sum_list_with f (<[i := y]> l) + f x = sum_list_with f l + f y.
Proof.
  revert i. induction l as [|z l IH]; intros [|i] Hl; simplify_eq/=; [lia|].
  specialize (IH i Hl). lia.
Qed.

Lemma sum_list_with_delete {A} (f : A → nat) (l : list A) i x :
  l !! i = Some x → sum_list_with f (delete i l) + f x = sum_list_with f l.
Proof.
  revert i. induction l as [|z l IH]; intros [|i] Hl; simplify_eq/=; [lia|].
  specialize (IH i Hl). lia.
Qed.

Lemma remove_one_occ a l l' b :
  remove_one a l = Some l' →
  occ b l = occ b l' + (if decide (a = b) then 1 else 0).
Proof.
  revert l'. induction l as [|c l IH]; intros l' H; simplify_eq/=.
  destruct (decide (c = a)) as [->|Hne]; simplify_eq.
  - lia.
  - destruct (remove_one a l) as [r|]; simplify_eq/=.
    specialize (IH r eq_refl). lia.
Qed.

Lemma strong_insert_same h a o o' b :
  h !! a = Some o → use_count o' = use_count o →
  strong (<[a := o']> h) b = strong h b.
Proof.
  intros Ho Hc. unfold strong. destruct (decide (a = b)) as [->|Hne].
  - by rewrite lookup_insert_eq, Ho, Hc.
  - by rewrite lookup_insert_ne.
Qed.

Lemma nonzero_insert h a o' :
  nonzero h → use_count o' ≠ Some 0 → nonzero (<[a := o']> h).
Proof.
  intros Hz Hc b ob Hl. destruct (decide (a = b)) as [->|Hne].
  - rewrite lookup_insert_eq in Hl. by simplify_eq.
  - rewrite lookup_insert_ne in Hl by done. eauto.
Qed.

Lemma acquire_strong a h h' b :
  acquire a h = Some h' →
  strong h' b = strong h b + (if decide (a = b) then 1 else 0).
Proof.
  unfold acquire. intros H.
  destruct (h !! a) as [o|] eqn:Ho; [|done].
  destruct (use_count o) as [n|] eqn:Hn; simplify_eq.
  unfold strong. destruct (decide (a = b)) as [->|Hne].
  - rewrite lookup_insert_eq, Ho, Hn. simpl. lia.
  - rewrite lookup_insert_ne by done. lia.
Qed.

Lemma acquire_nonzero a h h' : acquire a h = Some h' → nonzero h → nonzero h'.
Proof.
  unfold acquire. intros H Hz. repeat case_match; simplify_eq.
  by apply nonzero_insert.
Qed.

Lemma release_strong a h h' b :
  release a h = Some h' →
  strong h b = strong h' b + (if decide (a = b) then 1 else 0).
Proof.
  unfold release. intros H.
  destruct (h !! a) as [o|] eqn:Ho; [|done].
  destruct (use_count o) as [[|[|n]]|] eqn:Hn; simplify_eq; unfold strong;
    (destruct (decide (a = b)) as [->|Hne];
      [rewrite Ho, Hn; simpl | ]).
  - rewrite lookup_delete_eq. lia.
  - rewrite lookup_delete_ne by done. lia.
  - rewrite lookup_insert_eq. simpl. lia.
  - rewrite lookup_insert_ne by done. lia.
Qed.

Lemma release_nonzero a h h' : release a h = Some h' → nonzero h → nonzero h'.
Proof.
  unfold release. intros H Hz. repeat case_match; simplify_eq.
  - intros b ob Hl. apply lookup_delete_Some in Hl as [_ Hl]. eauto.
  - by apply nonzero_insert.
Qed.

Lemma refs_update σ t th th' h' vs' ps' lg :
  refs_inv σ → threads σ !! t = Some th → nonzero h' →
  (∀ b, var_refs b vs' + pending_refs b ps' + thread_refs b th' + strong (heap σ) b
        = var_refs b (vars σ) + pending_refs b (pending σ) + thread_refs b th
          + strong h' b) →
  refs_inv (State h' vs' ps' (<[t := th']> (threads σ)) lg).
Proof.
  intros [Hrc Hz] Hth Hz' Heq. split; [|done]. intros b.
  specialize (Hrc b). specialize (Heq b). unfold holders in *. simpl.
  pose proof (sum_list_with_insert (thread_refs b) _ _ _ th' Hth) as Hs.
  unfold threads_refs in *. lia.
Qed.

(** A step that touches neither a strong count nor a reference. *)
Lemma refs_update_same σ t th k h' lg :
  refs_inv σ → threads σ !! t = Some th →
  (∀ b, strong h' b = strong (heap σ) b) → nonzero h' →
  refs_inv (State h' (vars σ) (pending σ) (<[t := goto th k]> (threads σ)) lg).
Proof.
  intros Hinv Hth Hs Hz. eapply refs_update; [done..|].
  intros b. rewrite Hs. unfold thread_refs. simpl. lia.
Qed.

Lemma refs_run_thread t σ σ' :
  refs_inv σ → run_thread t σ = Next σ' → refs_inv σ'.
Proof.
  intros Hinv Hstep. unfold run_thread in Hstep.
  destruct (threads σ !! t) as [th|] eqn:Hth; [|done].
  pose proof Hinv as [Hrc Hz].
  destruct (pc th) as [| |a k|a k|a k|a b k|a k|a c k|a k|a v k|f v k|[x|x v|x] k|k] eqn:Hpc;
    try done.
  - (* Lock *)
    destruct (heap σ !! a) as [o|] eqn:Ho; [|done].
    destruct (mutex_lock t (mutex_ o)) as [m|]; simplify_eq.
    unfold update. apply refs_update_same; auto.
    + intros b. by eapply strong_insert_same.
    + apply nonzero_insert; [done|]. simpl. eauto.
  - (* Unlock *)
    destruct (heap σ !! a) as [o|] eqn:Ho; [|done].
    destruct (mutex_unlock t (mutex_ o)) as [m|]; simplify_eq.
    unfold update. apply refs_update_same; auto.
    + intros b. by eapply strong_insert_same.
    + apply nonzero_insert; [done|]. simpl. eauto.
  - (* LoadMuted *)
    destruct (heap σ !! a) as [o|] eqn:Ho; simplify_eq.
    unfold update. by apply refs_update_same.
  - (* StoreMuted *)
    destruct (heap σ !! a) as [o|] eqn:Ho; simplify_eq.
    unfold update. apply refs_update_same; auto.
    + intros b'. by eapply strong_insert_same.
    + apply nonzero_insert; [done|]. simpl. eauto.
  - (* SharedFromThis *)
    destruct (heap σ !! a) as [o|] eqn:Ho; [|done].
    destruct (use_count o) as [n|] eqn:Hn; simplify_eq.
    + unfold update. eapply refs_update; eauto.
      * by apply nonzero_insert.
      * intros b. unfold thread_refs, strong. simpl.
        destruct (decide (a = b)) as [->|Hne].
        -- rewrite lookup_insert_eq, Ho, Hn. simpl. lia.
        -- rewrite lookup_insert_ne by done. lia.
    + unfold update. by apply refs_update_same.
  - (* Execute *)
    destruct (heap σ !! a) as [o|] eqn:Ho; [|done].
    destruct (acquire (shared_this c) (heap σ)) as [h|] eqn:Hacq; simplify_eq.
    eapply refs_update; eauto using acquire_nonzero.
    intros b. rewrite (acquire_strong _ _ _ b Hacq).
    unfold pending_refs. rewrite sum_list_with_app. simpl.
    unfold thread_refs, closure_refs. simpl. lia.
  - (* Release *)
    destruct (remove_one a (locals th)) as [l|] eqn:Hrm; [|done].
    destruct (release a (heap σ)) as [h|] eqn:Hrel; simplify_eq.
    unfold update. eapply refs_update; eauto using release_nonzero.
    intros b. rewrite (release_strong _ _ _ b Hrel).
    unfold thread_refs. simpl. rewrite (remove_one_occ _ _ _ b Hrm). lia.
  - (* DelegateOnEvent *)
    destruct (heap σ !! a) as [o|] eqn:Ho; simplify_eq.
    by apply refs_update_same.
  - (* Invoke *)
    simplify_eq. by apply refs_update_same.
  - (* x->Mute() *)
    destruct (vars σ !! x) as [[a|]|]; simplify_eq.
    unfold update. by apply refs_update_same.
  - (* x->OnEvent(v) *)
    destruct (vars σ !! x) as [[a|]|]; simplify_eq.
    unfold update. by apply refs_update_same.
  - (* x.reset() *)
    destruct (vars σ !! x) as [[a|]|] eqn:Hx.
    + destruct (release a (heap σ)) as [h|] eqn:Hrel; simplify_eq.
      eapply refs_update; eauto using release_nonzero.
      intros b. rewrite (release_strong _ _ _ b Hrel).
      unfold var_refs.
      pose proof (sum_list_with_insert
        (λ v, match v with
              | Some b0 => if decide (b0 = b) then 1 else 0
              | None => 0
              end) _ _ _ None Hx) as Hs.
      simpl in Hs. unfold thread_refs. simpl. lia.
    + simplify_eq. unfold update. by apply refs_update_same.
    + simplify_eq. unfold update. by apply refs_update_same.
  - (* DropClosure *)
    destruct (job th) as [c|] eqn:Hjob; [|done].
    destruct (release (shared_this c) (heap σ)) as [h|] eqn:Hrel; simplify_eq.
    unfold update. eapply refs_update; eauto using release_nonzero.
    intros b. rewrite (release_strong _ _ _ b Hrel).
    unfold thread_refs. rewrite Hjob. simpl. unfold closure_refs. lia.
Qed.

Lemma refs_dispatch i σ σ' :
  refs_inv σ → dispatch i σ = Next σ' → refs_inv σ'.
Proof.
  intros [Hrc Hz] Hstep. unfold dispatch in Hstep.
  destruct (pending σ !! i) as [[e c]|] eqn:Hi; simplify_eq.
  split; [|done]. intros b. rewrite <- Hrc. unfold holders. simpl.
  pose proof (sum_list_with_delete (λ p, closure_refs b p.2) _ _ _ Hi) as Hs.
  unfold pending_refs, threads_refs in *. rewrite sum_list_with_app. simpl in *.
  unfold thread_refs at 2. simpl. lia.
Qed.

Lemma refs_step s σ σ' : refs_inv σ → step s σ = Next σ' → refs_inv σ'.
Proof. destruct s; [apply refs_run_thread | apply refs_dispatch]. Qed.

(** ** Initial states satisfy both invariants, and runs keep them *)

Lemma initial_facts σ :
  initial σ = true →
  pending σ = [] ∧
  (∀ th, th ∈ threads σ → is_user_code (pc th) = true ∧ locals th = [] ∧ job th = None) ∧
  (∀ a o, heap σ !! a = Some o →
     owner (mutex_ o) = None ∧ use_count o ≠ Some 0 ∧
     default 0 (use_count o) = var_refs a (vars σ)) ∧
  (∀ a, Some a ∈ vars σ → is_Some (heap σ !! a)).
Proof.
  unfold initial. rewrite !andb_true_iff. intros [[[Hp Ht] Ho] Hv].
  split; [by destruct (pending σ)|]. split; [|split].
  - intros th Hin%list_elem_of_In. rewrite forallb_forall in Ht.
    specialize (Ht th Hin). unfold fresh_thread in Ht.
    apply andb_true_iff in Ht as [? Hlj].
    destruct (locals th), (job th); done.
  - intros a o Hl. rewrite forallb_forall in Ho.
    specialize (Ho (a, o)). unfold fresh_object in Ho. simpl in Ho.
    assert (Hin : In (a, o) (map_to_list (heap σ)))
      by (by apply list_elem_of_In, elem_of_map_to_list).
    specialize (Ho Hin).
    destruct (owner (mutex_ o)); [done|].
    destruct (depth (mutex_ o)); [|done].
    destruct (use_count o) as [[|n]|]; try done;
      apply bool_decide_eq_true in Ho; simpl; auto.
  - intros a Hin%list_elem_of_In. rewrite forallb_forall in Hv.
    specialize (Hv _ Hin). simpl in Hv. by apply bool_decide_eq_true in Hv.
Qed.

Lemma var_refs_none a vs : Some a ∉ vs → var_refs a vs = 0.
Proof.
  unfold var_refs. induction vs as [|[b|] vs IH]; simpl; [done| |].
  - rewrite not_elem_of_cons. intros [Hne Hni].
    rewrite decide_False by congruence. auto.
  - rewrite not_elem_of_cons. intros [_ Hni]. auto.
Qed.

Lemma initial_locks σ : initial σ = true → locks_inv σ.
Proof.
  intros (_ & Ht & Ho & _)%initial_facts. split.
  - intros a o t Hl Hown. destruct (Ho a o Hl) as [Hn _]. congruence.
  - intros t th Hl. exists [].
    destruct (Ht th) as (Hu & Hlo & Hj); [by eapply list_elem_of_lookup_2|].
    split; [left; rewrite Hlo, Hj; by apply wf_is_user_code|].
    intros a o Ha. destruct (Ho a o Ha) as [Hn _]. simpl.
    unfold lockview. rewrite Hn. by rewrite decide_False.
Qed.

Lemma initial_refs σ : initial σ = true → refs_inv σ.
Proof.
  intros (Hp & Ht & Ho & Hv)%initial_facts. split.
  - intros a. unfold holders. rewrite Hp. simpl.
    assert (Hz : threads_refs a (threads σ) = 0).
    { unfold threads_refs. induction (threads σ) as [|th ths IH]; [done|]. simpl.
      destruct (Ht th) as (_ & Hl & Hj); [by left|].
      unfold thread_refs. rewrite Hl, Hj. simpl.
      apply IH. intros th' Hin. apply Ht. by right. }
    rewrite Hz. unfold strong.
    destruct (heap σ !! a) as [o|] eqn:Ha.
    + destruct (Ho a o Ha) as (_ & _ & ->). lia.
    + rewrite var_refs_none; [done|]. intros Hin.
      destruct (Hv a Hin) as [o Ho']. congruence.
  - intros a o Ha. by destruct (Ho a o Ha) as (_ & ? & _).
Qed.

Lemma exec_app ss1 ss2 σ :
  exec (ss1 ++ ss2) σ =
  match exec ss1 σ with
  | Next σ1 => exec ss2 σ1
  | r => r
  end.
Proof.
  revert σ. induction ss1 as [|s ss1 IH]; intros σ; simpl; [done|].
  destruct (step s σ); auto.
Qed.

Lemma exec_cons s ss σ :
  exec (s :: ss) σ =
  match step s σ with
  | Next σ' => exec ss σ'
  | r => r
  end.
Proof. done. Qed.

(** A property kept by every step is kept by every run. *)
Lemma exec_invariant (P : state → Prop) :
  (∀ s σ σ', P σ → step s σ = Next σ' → P σ') →
  ∀ ss σ σ', P σ → exec ss σ = Next σ' → P σ'.
Proof.
  intros Hstep ss. induction ss as [|s ss IH]; intros σ σ' HP Hex; simpl in Hex.
  - by simplify_eq.
  - destruct (step s σ) as [σ1| | |] eqn:Hs; try done. eauto.
Qed.

Lemma reachable_locks σ0 ss σ :
  initial σ0 = true → exec ss σ0 = Next σ → locks_inv σ.
Proof.
  intros Hi. apply (exec_invariant locks_inv); [apply locks_step|].
  by apply initial_locks.
Qed.

Lemma reachable_refs σ0 ss σ :
  initial σ0 = true → exec ss σ0 = Next σ → refs_inv σ.
Proof.
  intros Hi. apply (exec_invariant refs_inv); [apply refs_step|].
  by apply initial_refs.
Qed.

(** ** What a step does to the objects and to the log *)

Lemma heap_mono_same h h' : same_locks h h' → heap_mono h h'.
Proof.
  intros Hs a o' Hl. destruct (Hs a o' Hl) as (o & ? & _ & Hm & ? & ?).
  exists o. rewrite Hm. auto.
Qed.

Lemma heap_mono_insert h a o o' :
  h !! a = Some o → (muted_ o = true → muted_ o' = true) →
  executor_ o' = executor_ o → delegate_ o' = delegate_ o →
  heap_mono h (<[a := o']> h).
Proof.
  intros Ha Hm He Hd b ob Hl. destruct (decide (a = b)) as [->|Hne].
  - rewrite lookup_insert_eq in Hl. simplify_eq. eauto 10.
  - rewrite lookup_insert_ne in Hl by done. eauto 10.
Qed.

Lemma heap_mono_run_thread t σ σ' :
  locks_inv σ → run_thread t σ = Next σ' → heap_mono (heap σ) (heap σ').
Proof.
  intros [_ Hts] Hstep. unfold run_thread in Hstep.
  destruct (threads σ !! t) as [th|] eqn:Hth; [|done].
  destruct (Hts t th Hth) as (L & Hw & _).
  destruct (pc th) as [| |a k|a k|a k|a b k|a k|a c k|a k|a v k|f v k|[x|x v|x] k|k] eqn:Hpc;
    try done.
  - destruct (heap σ !! a) as [o|] eqn:Ho; [|done].
    destruct (mutex_lock t (mutex_ o)); simplify_eq. by eapply heap_mono_insert.
  - destruct (heap σ !! a) as [o|] eqn:Ho; [|done].
    destruct (mutex_unlock t (mutex_ o)); simplify_eq. by eapply heap_mono_insert.
  - destruct (heap σ !! a); simplify_eq. apply heap_mono_same, same_locks_refl.
  - destruct (heap σ !! a) as [o|] eqn:Ho; simplify_eq. wf_head Hw Hpc.
    by eapply heap_mono_insert.
  - destruct (heap σ !! a) as [o|] eqn:Ho; [|done].
    destruct (use_count o); simplify_eq; apply heap_mono_same;
      [by apply same_locks_insert | apply same_locks_refl].
  - destruct (heap σ !! a); [|done].
    destruct (acquire (shared_this c) (heap σ)) eqn:Hacq; simplify_eq.
    by eapply heap_mono_same, same_locks_acquire.
  - destruct (remove_one a (locals th)); [|done].
    destruct (release a (heap σ)) eqn:Hrel; simplify_eq.
    by eapply heap_mono_same, same_locks_release.
  - destruct (heap σ !! a); simplify_eq. apply heap_mono_same, same_locks_refl.
  - simplify_eq. apply heap_mono_same, same_locks_refl.
  - destruct (vars σ !! x) as [[a|]|]; simplify_eq. apply heap_mono_same, same_locks_refl.
  - destruct (vars σ !! x) as [[a|]|]; simplify_eq. apply heap_mono_same, same_locks_refl.
  - destruct (vars σ !! x) as [[a|]|]; simplify_eq;
      try apply heap_mono_same, same_locks_refl.
    destruct (release a (heap σ)) eqn:Hrel; simplify_eq.
    by eapply heap_mono_same, same_locks_release.
  - destruct (job th) as [c|]; [|done].
    destruct (release (shared_this c) (heap σ)) eqn:Hrel; simplify_eq.
    by eapply heap_mono_same, same_locks_release.
Qed.

Lemma heap_mono_step s σ σ' :
  locks_inv σ → step s σ = Next σ' → heap_mono (heap σ) (heap σ').
Proof.
  destruct s as [t|i]; [apply heap_mono_run_thread|].
  intros _ Hstep. simpl in Hstep. unfold dispatch in Hstep.
  destruct (pending σ !! i) as [[e c]|]; simplify_eq.
  apply heap_mono_same, same_locks_refl.
Qed.

(** A step logs nothing, or the delegate call its thread was at, or the call
    of a callback. *)
Lemma step_log s σ σ' :
  step s σ = Next σ' →
  log σ' = log σ ∨
  (∃ t th a v k o, s = Run t ∧ threads σ !! t = Some th ∧
     pc th = DelegateOnEvent a v k ∧ heap σ !! a = Some o ∧
     log σ' = log σ ++ [EvDelegate t a v]) ∨
  (∃ t f v, log σ' = log σ ++ [EvCallback t f v]).
Proof.
  destruct s as [t|i]; simpl.
  - unfold run_thread. intros Hstep.
    destruct (threads σ !! t) as [th|] eqn:Hth; [|done].
    destruct (pc th) eqn:Hpc; repeat case_match; simplify_eq; simpl; eauto 15.
  - unfold dispatch. intros Hstep. repeat case_match; simplify_eq; simpl; eauto.
Qed.

(** The delegate is called only by a thread that holds the object's mutex and
    on an object that is not muted. *)
Lemma delegate_step s σ σ' t a v :
  locks_inv σ → step s σ = Next σ' → log σ' = log σ ++ [EvDelegate t a v] →
  ∃ o, heap σ !! a = Some o ∧ owner (mutex_ o) = Some t ∧
       0 < depth (mutex_ o) ∧ muted_ o = false.
Proof.
  intros [_ Hts] Hstep Hlog.
  destruct (step_log _ _ _ Hstep)
    as [Heq | [(t' & th & a' & v' & k & o & -> & Hth & Hpc & Ho & Heq) | (t' & f & v' & Heq)]];
    rewrite Heq in Hlog.
  - apply (f_equal length) in Hlog. rewrite length_app in Hlog. simpl in Hlog. lia.
  - apply app_inv_head in Hlog. simplify_eq.
    destruct (Hts t th Hth) as (L & Hw & Hh). wf_head Hw Hpc.
    match goal with H : _ ∈ L |- _ => destruct (held_owner _ _ _ _ _ Hh H Ho) end.
    exists o. eauto.
  - apply app_inv_head in Hlog. simplify_eq.
Qed.

Lemma muted_or_gone_step s σ σ' a :
  locks_inv σ → step s σ = Next σ' → muted_or_gone a σ → muted_or_gone a σ'.
Proof.
  intros Hinv Hstep Hm o' Ho'.
  destruct (heap_mono_step _ _ _ Hinv Hstep a o' Ho') as (o & Ho & Hmono & _).
  eauto.
Qed.

Lemma muted_or_gone_exec ss σ σ' a :
  locks_inv σ → exec ss σ = Next σ' → muted_or_gone a σ → muted_or_gone a σ'.
Proof.
  intros Hinv Hex Hm.
  apply (exec_invariant (λ σ, locks_inv σ ∧ muted_or_gone a σ)) in Hex; [tauto| |done].
  intros s σ1 σ2 [? ?] ?. eauto using locks_step, muted_or_gone_step.
Qed.

Lemma no_delegate_exec ss σ σ' a :
  locks_inv σ → muted_or_gone a σ → exec ss σ = Next σ' →
  ∃ l, log σ' = log σ ++ l ∧ ∀ t v, EvDelegate t a v ∉ l.
Proof.
  revert σ. induction ss as [|s ss IH]; intros σ Hinv Hm Hex; simpl in Hex.
  - simplify_eq. exists []. rewrite app_nil_r. split; [done|].
    intros t v. apply not_elem_of_nil.
  - destruct (step s σ) as [σ1| | |] eqn:Hs; try done.
    destruct (IH σ1) as (l & Hl & Hnot); eauto using locks_step, muted_or_gone_step.
    destruct (step_log _ _ _ Hs)
      as [Heq | [(t' & th & a' & v' & k & o & -> & Hth & Hpc & Ho & Heq) | (t' & f & v' & Heq)]].
    + exists l. by rewrite Hl, Heq.
    + exists (EvDelegate t' a' v' :: l). rewrite Hl, Heq, <- app_assoc. split; [done|].
      intros t v [Hin | Hin]%elem_of_cons; [|by eapply Hnot].
      simplify_eq.
      destruct (delegate_step _ _ _ _ _ _ Hinv Hs Heq) as (o' & Ho' & _ & _ & Hf).
      specialize (Hm o' Ho'). congruence.
    + exists (EvCallback t' f v' :: l). rewrite Hl, Heq, <- app_assoc. split; [done|].
      intros t v [Hin | Hin]%elem_of_cons; [done | by eapply Hnot].
Qed.

(** ** Running a method to its end *)

Lemma OnEvent_runs σ t th this v k o n :
  threads σ !! t = Some th →
  pc th = AsyncEventListener_OnEvent this v k →
  heap σ !! this = Some o → use_count o = Some n →
  exec (run t 3) σ =
    Next (State (<[this := set_use_count o (S n)]> (heap σ)) (vars σ)
            (pending σ ++ [(executor_ o, Closure this v)])
            (<[t := goto th k]> (threads σ)) (log σ)).
Proof.
  intros Hth Hpc Ho Hn.
  assert (Hlt : t < length (threads σ)) by (by eapply lookup_lt_Some).
  destruct σ as [h vs ps ths lg], th as [p l j]. simpl in *. subst p.
  unfold AsyncEventListener_OnEvent.
  unfold step, run_thread; simpl. rewrite Hth; simpl. rewrite Ho, Hn.
  run_step. unfold acquire. rewrite lookup_insert_eq. simpl.
  run_step. rewrite decide_True by done. unfold release. rewrite lookup_insert_eq. simpl.
  run_step. run_done.
Qed.

Lemma lock_unlock t m :
  available t m →
  ∃ m1, mutex_lock t m = Some m1 ∧ mutex_unlock t m1 = Some m ∧
        owner m1 = Some t ∧ 0 < depth m1.
Proof.
  unfold mutex_lock, mutex_unlock. intros [-> | [Hown Hd]]; simpl.
  - eexists. split; [done|]. simpl. rewrite decide_True by done. auto with lia.
  - destruct m as [ow [|d]]; simpl in *; [lia|]. subst ow.
    rewrite decide_True by done. eexists. split; [done|]. simpl.
    rewrite decide_True by done. auto with lia.
Qed.

Lemma set_mutex_id o : set_mutex o (mutex_ o) = o.
Proof. by destruct o. Qed.

Lemma Mute_runs σ t th this k o :
  threads σ !! t = Some th →
  pc th = AsyncEventListener_Mute this k →
  heap σ !! this = Some o → available t (mutex_ o) →
  exec (run t 3) σ =
    Next (State (<[this := set_muted o true]> (heap σ)) (vars σ) (pending σ)
            (<[t := goto th k]> (threads σ)) (log σ)).
Proof.
  intros Hth Hpc Ho Hav.
  assert (Hlt : t < length (threads σ)) by (by eapply lookup_lt_Some).
  destruct (lock_unlock _ _ Hav) as (m1 & Hl & Hu & _).
  destruct σ as [h vs ps ths lg], th as [p l j]. simpl in *. subst p.
  unfold AsyncEventListener_Mute.
  unfold step, run_thread; simpl. rewrite Hth; simpl. rewrite Ho, Hl.
  run_step. run_step. rewrite ?Hu. unfold update, goto; simpl.
  rewrite ?insert_insert_eq, ?list_insert_insert_eq.
  by destruct o.
Qed.

(** The task on a muted object: lock, look, unlock. *)
Lemma closure_body_muted_runs σ t th c k o :
  threads σ !! t = Some th →
  pc th = closure_body c k →
  heap σ !! shared_this c = Some o → available t (mutex_ o) →
  muted_ o = true →
  exec (run t 3) σ =
    Next (State (heap σ) (vars σ) (pending σ)
            (<[t := goto th k]> (threads σ)) (log σ)).
Proof.
  intros Hth Hpc Ho Hav Hm.
  assert (Hlt : t < length (threads σ)) by (by eapply lookup_lt_Some).
  destruct (lock_unlock _ _ Hav) as (m1 & Hl & Hu & _).
  destruct σ as [h vs ps ths lg], th as [p l j]. simpl in *. subst p.
  unfold closure_body.
  unfold step, run_thread; simpl. rewrite Hth; simpl. rewrite Ho, Hl.
  run_step. rewrite Hm. simpl.
  run_step. rewrite ?Hu. unfold update, goto; simpl.
  rewrite ?insert_insert_eq, ?list_insert_insert_eq.
  rewrite (insert_id h); [done|]. rewrite Ho. by destruct o.
Qed.

(** The task on an object that is not muted: lock, look, call the delegate,
    which calls its callback. *)
Lemma closure_body_delivers σ t th c k o f :
  threads σ !! t = Some th →
  pc th = closure_body c k →
  heap σ !! shared_this c = Some o → available t (mutex_ o) →
  muted_ o = false → delegate_ o = CallbackEventListener f →
  ∃ m, mutex_lock t (mutex_ o) = Some m ∧
  exec (run t 4) σ =
    Next (State (<[shared_this c := set_mutex o m]> (heap σ)) (vars σ) (pending σ)
            (<[t := goto th (user_code (f (maybe_value c)) (Unlock (shared_this c) k))]>
               (threads σ))
            (log σ ++ [EvDelegate t (shared_this c) (maybe_value c);
                       EvCallback t f (maybe_value c)])).
Proof.
  intros Hth Hpc Ho Hav Hm Hd.
  assert (Hlt : t < length (threads σ)) by (by eapply lookup_lt_Some).
  destruct (lock_unlock _ _ Hav) as (m1 & Hl & Hu & _).
  exists m1. split; [done|].
  destruct σ as [h vs ps ths lg], th as [p l j]. simpl in *. subst p.
  unfold closure_body.
  unfold step, run_thread; simpl. rewrite Hth; simpl. rewrite Ho, Hl.
  run_step. rewrite Hm. simpl.
  run_step. rewrite Hd. simpl. unfold CallbackEventListener_OnEvent.
  run_step. unfold goto; simpl.
  by rewrite <- app_assoc.
Qed.

(** Whoever holds a strong reference finds the object alive. *)
Lemma holder_alive σ a :
  refs_inv σ → 0 < holders a σ →
  ∃ o n, heap σ !! a = Some o ∧ use_count o = Some (S n).
Proof.
  intros [Hrc Hz] Hpos. rewrite Hrc in Hpos. unfold strong in Hpos.
  destruct (heap σ !! a) as [o|] eqn:Ho; [|lia].
  destruct (use_count o) as [[|n]|] eqn:Hn; simpl in Hpos; try lia. eauto.
Qed.

Lemma pending_holds σ e c :
  (e, c) ∈ pending σ → 0 < holders (shared_this c) σ.
Proof.
  intros Hin. unfold holders, pending_refs.
  pose proof (sum_list_with_in _ (λ p, closure_refs (shared_this c) p.2) _ Hin) as Hle.
  simpl in Hle. unfold closure_refs at 1 in Hle. rewrite decide_True in Hle by done. lia.
Qed.

Lemma job_holds σ t th c :
  threads σ !! t = Some th → job th = Some c → 0 < holders (shared_this c) σ.
Proof.
  intros Hth Hj. unfold holders, threads_refs.
  pose proof (sum_list_with_in _ (thread_refs (shared_this c)) _
                (list_elem_of_lookup_2 _ _ _ Hth)) as Hle.
  unfold thread_refs at 1 in Hle. rewrite Hj in Hle. simpl in Hle.
  unfold closure_refs in Hle. rewrite decide_True in Hle by done. lia.
Qed.

Lemma alive_no_use_after_free t σ a o n :
  heap σ !! a = Some o → use_count o = Some (S n) →
  run_thread t σ ≠ Crash (UseAfterFree a).
Proof.
  intros Ho Hn. unfold run_thread.
  destruct (threads σ !! t) as [th|]; [|done].
  destruct (pc th) as [| |b k|b k|b k|b ? k|b k|b c k|b k|b v k|f v k|[x|x v|x] k|k];
    try done.
  all: repeat case_match; try done; intros [= <-]; simplify_eq.
  all: repeat match goal with
       | H : acquire _ _ = None |- _ => unfold acquire in H; rewrite Ho, Hn in H
       | H : release _ _ = None |- _ =>
           unfold release in H; rewrite Ho, Hn in H; destruct n
       end; done.
Qed.

(** The thread that calls a delegate is running a closure, and calls the
    delegate of the closure's object with the closure's result. *)
Lemma delegate_step_job s σ σ' t a v :
  locks_inv σ → step s σ = Next σ' → log σ' = log σ ++ [EvDelegate t a v] →
  ∃ th, threads σ !! t = Some th ∧ job th = Some (Closure a v).
Proof.
  intros [_ Hts] Hstep Hlog.
  destruct (step_log _ _ _ Hstep)
    as [Heq | [(t' & th & a' & v' & k & o & -> & Hth & Hpc & Ho & Heq) | (t' & f & v' & Heq)]];
    rewrite Heq in Hlog.
  - apply (f_equal length) in Hlog. rewrite length_app in Hlog. simpl in Hlog. lia.
  - apply app_inv_head in Hlog. simplify_eq.
    destruct (Hts t th Hth) as (L & Hw & Hh). wf_head Hw Hpc.
    exists th. split; [done|].
    match goal with H : job th = Some ?c |- _ => rewrite H; by destruct c end.
  - apply app_inv_head in Hlog. simplify_eq.
Qed.

Lemma thread_holds σ t th a :
  threads σ !! t = Some th → 0 < thread_refs a th → 0 < holders a σ.
Proof.
  intros Hth Hpos. unfold holders, threads_refs.
  pose proof (sum_list_with_in _ (thread_refs a) _
                (list_elem_of_lookup_2 _ _ _ Hth)). lia.
Qed.

Lemma var_holds σ x a : vars σ !! x = Some (Some a) → 0 < holders a σ.
Proof.
  intros Hx. unfold holders, var_refs.
  pose proof (sum_list_with_in _
    (λ v, match v with
          | Some b => if decide (b = a) then 1 else 0
          | None => 0
          end) _ (list_elem_of_lookup_2 _ _ _ Hx)) as Hle.
  simpl in Hle. rewrite decide_True in Hle by done. lia.
Qed.

Lemma release_alive a h o n :
  h !! a = Some o → use_count o = Some (S n) → is_Some (release a h).
Proof. intros Ho Hn. unfold release. rewrite Ho, Hn. destruct n; eauto. Qed.

(** The code of the header never faults.  A thread can only fail in user
    code: by a call through a variable that holds no object, or by a call on
    an object that went away during the call because the thread held no
    reference of its own to it. *)
Lemma crash_in_user_code t σ th f :
  locks_inv σ → refs_inv σ → threads σ !! t = Some th →
  run_thread t σ = Crash f →
  (∃ x, f = NullDeref x) ∨ (∃ a, f = UseAfterFree a ∧ thread_refs a th = 0).
Proof.
  intros [_ Hts] Hrefs Hth Hstep.
  destruct (Hts t th Hth) as (L & Hw & Hh).
  assert (Hlive : ∀ a, 0 < thread_refs a th →
            ∃ o n, heap σ !! a = Some o ∧ use_count o = Some (S n)).
  { intros a Ha. eauto using holder_alive, thread_holds. }
  assert (Huaf : ∀ a, heap σ !! a = None →
            ∃ b, UseAfterFree a = UseAfterFree b ∧ thread_refs b th = 0).
  { intros a Ha. exists a. split; [done|].
    destruct (thread_refs a th) eqn:Hr; [done|].
    destruct (Hlive a) as (o & n' & Ho & _); [lia|]. congruence. }
  assert (Hloc : ∀ a, a ∈ locals th → 0 < thread_refs a th).
  { intros a Ha%occ_elem. unfold thread_refs. lia. }
  unfold run_thread in Hstep. rewrite Hth in Hstep.
  destruct (pc th) as [| |a k|a k|a k|a b k|a k|a c k|a k|a v k|f' v k|[x|x v|x] k|k] eqn:Hpc;
    try done.
  - destruct (heap σ !! a) as [o|] eqn:Ho; [|simplify_eq; eauto].
    by destruct (mutex_lock t (mutex_ o)).
  - destruct (heap σ !! a) as [o|] eqn:Ho; [|simplify_eq; eauto].
    wf_head Hw Hpc.
    destruct (held_owner _ _ _ _ _ Hh (list_elem_of_here _ _) Ho) as [Hown _].
    unfold mutex_unlock in Hstep. rewrite Hown, decide_True in Hstep by done.
    by destruct (depth (mutex_ o)) as [|[|d]].
  - destruct (heap σ !! a) as [o|] eqn:Ho; [done|simplify_eq; eauto].
  - destruct (heap σ !! a) as [o|] eqn:Ho; [done|simplify_eq; eauto].
  - destruct (heap σ !! a) as [o|] eqn:Ho; [|simplify_eq; eauto].
    by destruct (use_count o).
  - wf_head Hw Hpc.
    destruct (Hlive a) as (o & n & Ho & Hn); [auto|].
    destruct (Hlive (shared_this c)) as (o' & n' & Ho' & Hn'); [auto|].
    rewrite Ho in Hstep. unfold acquire in Hstep. by rewrite Ho', Hn' in Hstep.
  - wf_head Hw Hpc.
    match goal with H : _ :: _ = locals th |- _ => rename H into Hl end.
    rewrite <- Hl in Hstep. simpl in Hstep. rewrite decide_True in Hstep by done.
    destruct (Hlive a) as (o & n & Ho & Hn);
      [apply Hloc; rewrite <- Hl; apply list_elem_of_here|].
    destruct (release_alive _ _ _ _ Ho Hn) as [h Hr]. by rewrite Hr in Hstep.
  - wf_head Hw Hpc.
    match goal with H : job th = Some ?c |- _ =>
      destruct (Hlive (shared_this c)) as (o & n & Ho & Hn);
        [unfold thread_refs, closure_refs; rewrite H; simpl;
         rewrite decide_True by done; lia|]
    end.
    by rewrite Ho in Hstep.
  - destruct (vars σ !! x) as [[a|]|]; simplify_eq; eauto.
  - destruct (vars σ !! x) as [[a|]|]; simplify_eq; eauto.
  - destruct (vars σ !! x) as [[a|]|] eqn:Hx; try done.
    destruct (holder_alive σ a) as (o & n & Ho & Hn); eauto using var_holds.
    destruct (release_alive _ _ _ _ Ho Hn) as [h Hr]. by rewrite Hr in Hstep.
  - wf_head Hw Hpc.
    match goal with H : Some ?c = job th |- _ =>
      rewrite <- H in Hstep;
      destruct (Hlive (shared_this c)) as (o & n & Ho & Hn);
        [unfold thread_refs, closure_refs; rewrite <- H; simpl;
         rewrite decide_True by done; lia|]
    end.
    destruct (release_alive _ _ _ _ Ho Hn) as [h Hr]. by rewrite Hr in Hstep.
Qed.

Lemma other_step_thread s σ σ' t th :
  s ≠ Run t → step s σ = Next σ' →
  threads σ !! t = Some th → threads σ' !! t = Some th.
Proof.
  intros Hne Hstep Hth. destruct s as [t'|i]; simpl in Hstep.
  - assert (t' ≠ t) by congruence.
    unfold run_thread in Hstep.
    destruct (threads σ !! t') as [th'|]; [|done].
    destruct (pc th'); repeat case_match; simplify_eq; simpl;
      by rewrite list_lookup_insert_ne.
  - unfold dispatch in Hstep. destruct (pending σ !! i) as [[e c]|]; simplify_eq.
    simpl. by apply lookup_app_l_Some.
Qed.

Lemma other_exec_thread ss σ σ' t th :
  Forall (λ s, s ≠ Run t) ss → exec ss σ = Next σ' →
  threads σ !! t = Some th → threads σ' !! t = Some th.
Proof.
  revert σ. induction ss as [|s ss IH]; intros σ Hall Hex Hth; simpl in Hex.
  - by simplify_eq.
  - apply Forall_cons in Hall as [Hs Hall].
    destruct (step s σ) as [σ1| | |] eqn:Hst; try done.
    eauto using other_step_thread.
Qed.

(** [Mute] at work among other threads.  Stage 0: thread [t] is about to run
    [Mute]; stage 1: it has the lock and is about to set the flag; from
    stage 2 on the flag is set.  Every operation of [t] moves it one stage
    on, and what the others do moves it nowhere. *)
Lemma Mute_sets_flag t this k ss :
  ∀ σ σ' j,
    locks_inv σ →
    match j with
    | 0 => ∃ th, threads σ !! t = Some th ∧ pc th = AsyncEventListener_Mute this k
    | 1 => ∃ th, threads σ !! t = Some th ∧
                 pc th = StoreMuted this true (Unlock this k)
    | _ => muted_or_gone this σ
    end →
    exec ss σ = Next σ' → 2 ≤ j + steps_of t ss →
    muted_or_gone this σ'.
Proof.
  induction ss as [|s ss IH]; intros σ σ' j Hinv Hj Hex Hn; simpl in Hex.
  - simplify_eq. simpl in Hn. destruct j as [|[|j]]; [lia | lia | done].
  - destruct (step s σ) as [σ1| | |] eqn:Hs; try done.
    pose proof (locks_step _ _ _ Hinv Hs) as Hinv1.
    assert (s = Run t ∨ s ≠ Run t) as [->|Hne].
    { destruct s as [t'|i]; [|by right].
      destruct (decide (t' = t)) as [->|]; [by left | right; congruence]. }
    + simpl in Hn. rewrite decide_True in Hn by done.
      destruct j as [|[|j]].
      * destruct Hj as (th & Hth & Hpc).
        apply (IH σ1 σ' 1); [done| |done|lia].
        simpl in Hs. unfold run_thread in Hs. rewrite Hth, Hpc in Hs.
        unfold AsyncEventListener_Mute in Hs.
        destruct (heap σ !! this) as [o|]; [|done].
        destruct (mutex_lock t (mutex_ o)); simplify_eq.
        exists (goto th (StoreMuted this true (Unlock this k))). split; [|done].
        unfold update. simpl.
        apply list_lookup_insert_eq. by eapply lookup_lt_Some.
      * destruct Hj as (th & Hth & Hpc).
        apply (IH σ1 σ' 2); [done| |done|lia].
        simpl in Hs. unfold run_thread in Hs. rewrite Hth, Hpc in Hs.
        destruct (heap σ !! this) as [o|]; simplify_eq.
        intros o'. unfold update. simpl. rewrite lookup_insert_eq. by intros [= <-].
      * apply (IH σ1 σ' (S (S j))); [done| |done|lia].
        exact (muted_or_gone_step _ _ _ _ Hinv Hs Hj).
    + assert (Hsame : steps_of t (s :: ss) = steps_of t ss).
      { destruct s as [t'|i]; simpl; [|done].
        rewrite decide_False; [done|]. congruence. }
      rewrite Hsame in Hn.
      apply (IH σ1 σ' j); [done| |done|done].
      destruct j as [|[|j]].
      * destruct Hj as (th & Hth & Hpc). eauto using other_step_thread.
      * destruct Hj as (th & Hth & Hpc). eauto using other_step_thread.
      * exact (muted_or_gone_step _ _ _ _ Hinv Hs Hj).
Qed.

(** ** What the header promises *)

(** C1.  Once [Mute] has returned, nothing is delivered any more.  Let a
    thread of a reachable state be about to run [Mute] on a listener, and let
    the run go on, whatever the scheduler does, until that thread has made
    the three operations of [Mute], that is, until [Mute] has returned.  From
    the state reached no run logs a call of the delegate of that listener,
    so a task that starts then delivers nothing.  More generally this holds
    from every reachable state in which [muted_] is set. *)
Theorem mute_suppresses_later_delivery :
  (∀ σ0 ss0 σa t th this k ss1 σ1 ss2 σ2,
     initial σ0 = true → exec ss0 σ0 = Next σa →
     threads σa !! t = Some th → pc th = AsyncEventListener_Mute this k →
     exec ss1 σa = Next σ1 → 3 ≤ steps_of t ss1 →
     exec ss2 σ1 = Next σ2 →
     ∃ l, log σ2 = log σ1 ++ l ∧ ∀ t' v, EvDelegate t' this v ∉ l) ∧
  (∀ σ0 ss1 σ1 ss2 σ2 a o1,
     initial σ0 = true → exec ss1 σ0 = Next σ1 →
     heap σ1 !! a = Some o1 → muted_ o1 = true →
     exec ss2 σ1 = Next σ2 →
     ∃ l, log σ2 = log σ1 ++ l ∧ ∀ t v, EvDelegate t a v ∉ l).
Proof.
  split.
  - intros σ0 ss0 σa t th this k ss1 σ1 ss2 σ2 Hi H0 Hth Hpc H1 Hn H2.
    pose proof (reachable_locks _ _ _ Hi H0) as Hinv.
    assert (Hm : muted_or_gone this σ1).
    { eapply (Mute_sets_flag t this k ss1 σa σ1 0); eauto. simpl. lia. }
    eapply no_delegate_exec; [|exact Hm|exact H2].
    eapply (exec_invariant locks_inv); [apply locks_step|exact Hinv|exact H1].
  - intros σ0 ss1 σ1 ss2 σ2 a o1 Hi H1 Ho Hm H2.
    eapply no_delegate_exec; [by eapply reachable_locks| |done].
    intros o Ho'. by simplify_eq.
Qed.

(** C2.  In every reachable state, a step that calls the delegate of [a] is
    made by a thread that holds the mutex of [a], and [muted_] is false at
    that very moment; and a task that finds [muted_] set takes the lock and
    gives it back without anything else: the state is the one before, the
    thread is past the task, nothing is logged and nothing is thrown. *)
Theorem delegate_called_under_lock_unmuted σ0 ss σ :
  initial σ0 = true → exec ss σ0 = Next σ →
  (∀ s σ' t a v,
     step s σ = Next σ' → log σ' = log σ ++ [EvDelegate t a v] →
     ∃ o, heap σ !! a = Some o ∧ owner (mutex_ o) = Some t ∧
          0 < depth (mutex_ o) ∧ muted_ o = false) ∧
  (∀ t th c k o,
     threads σ !! t = Some th → pc th = closure_body c k →
     heap σ !! shared_this c = Some o → available t (mutex_ o) →
     muted_ o = true →
     exec (run t 3) σ =
       Next (State (heap σ) (vars σ) (pending σ)
               (<[t := goto th k]> (threads σ)) (log σ))).
Proof.
  intros Hi Hex. split.
  - intros s σ' t a v. apply delegate_step. by eapply reachable_locks.
  - intros t th c k o. apply closure_body_muted_runs.
Qed.

(** C3.  [muted_] is false in a new object, whether built by the constructor
    or by [Create], and once it is true in a reachable state it is true in
    every later state in which the object still exists. *)
Theorem muted_monotonic :
  (∀ e d, muted_ (AsyncEventListener_new e d) = false) ∧
  (∀ a e d σ, ∃ o, heap (AsyncEventListener_Create a e d σ) !! a = Some o ∧
                   muted_ o = false) ∧
  (∀ σ0 ss1 σ1 ss2 σ2 a o1 o2,
     initial σ0 = true → exec ss1 σ0 = Next σ1 → exec ss2 σ1 = Next σ2 →
     heap σ1 !! a = Some o1 → muted_ o1 = true →
     heap σ2 !! a = Some o2 → muted_ o2 = true).
Proof.
  split; [done|]. split.
  - intros a e d σ. eexists. simpl. by rewrite lookup_insert_eq.
  - intros σ0 ss1 σ1 ss2 σ2 a o1 o2 Hi H1 H2 Ho1 Hm Ho2.
    eapply (muted_or_gone_exec ss2 σ1 σ2 a); eauto using reachable_locks.
    intros o Ho. by simplify_eq.
Qed.

(** C4.  [OnEvent] on an object owned by a [shared_ptr] runs to its end in
    three operations of the calling thread; they log nothing (the delegate is
    not called), add exactly one task to the executor, and that task holds the
    object by one more strong reference and holds the result itself. *)
Theorem OnEvent_submits_once σ t th this v k o n :
  threads σ !! t = Some th →
  pc th = AsyncEventListener_OnEvent this v k →
  heap σ !! this = Some o → use_count o = Some n →
  ∃ σ', exec (run t 3) σ = Next σ' ∧
        log σ' = log σ ∧
        pending σ' = pending σ ++ [(executor_ o, Closure this v)] ∧
        heap σ' = <[this := set_use_count o (S n)]> (heap σ) ∧
        threads σ' = <[t := goto th k]> (threads σ) ∧
        vars σ' = vars σ.
Proof.
  intros Hth Hpc Ho Hn. eexists. split; [by eapply OnEvent_runs|]. done.
Qed.

(** C5.  [Mute] on a muted object changes nothing: the state after the call
    is the state before it with the caller past the call, and nothing is
    thrown.  Two calls in a row leave the state one call leaves. *)
Theorem Mute_idempotent σ t this k o :
  t < length (threads σ) →
  heap σ !! this = Some o → available t (mutex_ o) →
  (muted_ o = true →
   exec (run t 3) (set_pc t (AsyncEventListener_Mute this k) σ) = Next (set_pc t k σ)) ∧
  exec (run t 6) (set_pc t (AsyncEventListener_Mute this (AsyncEventListener_Mute this k)) σ)
  = exec (run t 3) (set_pc t (AsyncEventListener_Mute this k) σ) ∧
  ∃ σ', exec (run t 3) (set_pc t (AsyncEventListener_Mute this k) σ) = Next σ' ∧
        heap σ' = <[this := set_muted o true]> (heap σ).
Proof.
  intros Hlt Ho Hav.
  destruct (lookup_lt_is_Some_2 _ _ Hlt) as [th Hth].
  assert (Hset : ∀ c, threads (set_pc t c σ) !! t = Some (goto th c)).
  { intros c. unfold set_pc. rewrite Hth. simpl. by apply list_lookup_insert_eq. }
  assert (Hone : ∀ k',
    exec (run t 3) (set_pc t (AsyncEventListener_Mute this k') σ) =
    Next (State (<[this := set_muted o true]> (heap σ)) (vars σ) (pending σ)
            (<[t := goto th k']> (threads σ)) (log σ))).
  { intros k'. erewrite Mute_runs; [|apply Hset|done| |done].
    - unfold set_pc. rewrite Hth. simpl. by rewrite list_insert_insert_eq.
    - unfold set_pc. by rewrite Hth. }
  split; [|split].
  - intros Hm. rewrite Hone. unfold set_pc. rewrite Hth.
    rewrite insert_id; [done|]. rewrite Ho. by destruct o; simpl in *; subst.
  - change (run t 6) with (run t 3 ++ run t 3). rewrite exec_app, !Hone.
    rewrite (Mute_runs _ t (goto th (AsyncEventListener_Mute this k)) this k
               (set_muted o true)); simpl.
    + by rewrite insert_insert_eq, list_insert_insert_eq.
    + by apply list_lookup_insert_eq.
    + done.
    + by rewrite lookup_insert_eq.
    + done.
  - eexists. split; [apply Hone|done].
Qed.

(** C6.  What [OnEvent] is given is what the delegate gets.  In every
    reachable state, a thread that calls the delegate of [a] with [v] is
    running the closure that holds [a] and [v], and such closures are what
    [OnEvent] on [a] with [v] submits.  From the call to the delivery: the
    call, the start of the task it submitted and the run of that task on an
    object that is not muted log one call of the delegate and one call of its
    callback, both with the very result passed to [OnEvent], be it a value or
    an error. *)
Theorem delivery_forwards_payload :
  (∀ σ0 ss σ s σ' t a v,
     initial σ0 = true → exec ss σ0 = Next σ →
     step s σ = Next σ' → log σ' = log σ ++ [EvDelegate t a v] →
     ∃ th, threads σ !! t = Some th ∧ job th = Some (Closure a v)) ∧
  (∀ σ t th this v k o n f,
     threads σ !! t = Some th →
     pc th = AsyncEventListener_OnEvent this v k →
     heap σ !! this = Some o → use_count o = Some n →
     mutex_ o = Mutex None 0 → muted_ o = false →
     delegate_ o = CallbackEventListener f →
     ∃ σ', exec (run t 3 ++ [Dispatch (length (pending σ))]
                   ++ run (length (threads σ)) 4) σ = Next σ' ∧
           log σ' = log σ ++ [EvDelegate (length (threads σ)) this v;
                              EvCallback (length (threads σ)) f v]).
Proof.
  split.
  { intros σ0 ss σ s σ' t a v Hi Hex. apply delegate_step_job.
    by eapply reachable_locks. }
  intros σ t th this v k o n f.
  intros Hth Hpc Ho Hn Hmx Hmu Hd.
  rewrite exec_app. erewrite OnEvent_runs by done.
  change ([Dispatch (length (pending σ))] ++ run (length (threads σ)) 4)
    with (Dispatch (length (pending σ)) :: run (length (threads σ)) 4).
  rewrite exec_cons. unfold step, dispatch. cbn [pending heap vars threads log].
  rewrite list_lookup_middle by done. cbv beta iota.
  edestruct (closure_body_delivers
    (State (<[this := set_use_count o (S n)]> (heap σ)) (vars σ)
       (delete (length (pending σ))
          (pending σ ++ [(executor_ o, Closure this v)]))
       (<[t := goto th k]> (threads σ) ++
          [Thread (closure_body (Closure this v) (DropClosure Return)) []
             (Some (Closure this v))])
       (log σ))
    (length (threads σ))
    (Thread (closure_body (Closure this v) (DropClosure Return)) []
       (Some (Closure this v)))
    (Closure this v) (DropClosure Return)
    (set_use_count o (S n)) f) as (m & Hm & Hrun);
    cbn [pending heap vars threads log pc shared_this].
  - apply list_lookup_middle. by rewrite length_insert.
  - done.
  - by rewrite lookup_insert_eq.
  - left. done.
  - done.
  - done.
  - rewrite Hrun. eexists. split; [done|]. done.
Qed.

(** C7.  In every reachable state the object of a pending task and the object
    of a running task exist and are owned (strong count at least one),
    whatever became of the variables of the application, and no operation of
    the thread that runs a task finds that object destroyed.  More generally
    a thread fails only in user code: through a variable that holds no
    object, or on an object it holds no reference to. *)
Theorem queued_task_keeps_listener_alive σ0 ss σ :
  initial σ0 = true → exec ss σ0 = Next σ →
  (∀ e c, (e, c) ∈ pending σ →
     ∃ o n, heap σ !! shared_this c = Some o ∧ use_count o = Some (S n)) ∧
  (∀ t th c, threads σ !! t = Some th → job th = Some c →
     (∃ o n, heap σ !! shared_this c = Some o ∧ use_count o = Some (S n)) ∧
     run_thread t σ ≠ Crash (UseAfterFree (shared_this c))) ∧
  (∀ t th f, threads σ !! t = Some th → run_thread t σ = Crash f →
     (∃ x, f = NullDeref x) ∨ (∃ a, f = UseAfterFree a ∧ thread_refs a th = 0)).
Proof.
  intros Hi Hex. pose proof (reachable_refs _ _ _ Hi Hex) as Hinv.
  split; [|split].
  - intros e c Hin. eauto using holder_alive, pending_holds.
  - intros t th c Hth Hj.
    destruct (holder_alive σ (shared_this c)) as (o & n & Ho & Hn);
      eauto using job_holds.
    split; [eauto|]. by eapply alive_no_use_after_free.
  - intros t th f Hth. eapply crash_in_user_code; eauto using reachable_locks.
Qed.

(** C8.  A thread that holds the mutex of an object and calls [Mute] on it, as
    the delegate does when it is called by the task, is not blocked: the three
    operations of [Mute] run, [muted_] is set and the mutex is held as before.
    Any other thread calling [Mute] at that time waits. *)
Theorem reentrant_Mute_no_deadlock σ t th this k o :
  threads σ !! t = Some th →
  pc th = AsyncEventListener_Mute this k →
  heap σ !! this = Some o →
  owner (mutex_ o) = Some t → 0 < depth (mutex_ o) →
  run_thread t σ ≠ Blocked ∧
  exec (run t 3) σ =
    Next (State (<[this := set_muted o true]> (heap σ)) (vars σ) (pending σ)
            (<[t := goto th k]> (threads σ)) (log σ)) ∧
  (∀ t' th' k', t' ≠ t → threads σ !! t' = Some th' →
     pc th' = AsyncEventListener_Mute this k' → run_thread t' σ = Blocked).
Proof.
  intros Hth Hpc Ho Hown Hd.
  pose proof (Mute_runs σ t th this k o Hth Hpc Ho (or_intror (conj Hown Hd))) as Hrun.
  split; [|split; [done|]].
  - intros Hb. simpl in Hrun. by rewrite Hb in Hrun.
  - intros t' th' k' Hne Hth' Hpc'. unfold run_thread.
    rewrite Hth', Hpc'. unfold AsyncEventListener_Mute. rewrite Ho.
    unfold mutex_lock. rewrite Hown. by rewrite decide_False.
Qed.

(** C9.  The listener made by [EventListener::Create] holds the callback it
    was given, and its [OnEvent] is one call of that callback with the very
    argument of [OnEvent], value or error: the call is logged once, and the
    thread goes on with the body of the callback for that argument and then
    returns to the caller. *)
Theorem callback_listener_forwards σ t th callback v k :
  threads σ !! t = Some th →
  pc th = EventListener_OnEvent (EventListener_Create callback) v k →
  EventListener_Create callback = CallbackEventListener callback ∧
  run_thread t σ =
    Next (State (heap σ) (vars σ) (pending σ)
            (<[t := goto th (user_code (callback v) k)]> (threads σ))
            (log σ ++ [EvCallback t callback v])).
Proof.
  intros Hth Hpc. split; [done|]. unfold run_thread. by rewrite Hth, Hpc.
Qed.

(** C10.  An object that no [shared_ptr] owns, as the public constructor
    leaves it, makes [OnEvent] fail at its first operation: the thread ends in
    [bad_weak_ptr], nothing is submitted, and the thread does nothing more.
    An object made by [Create] is owned. *)
Theorem OnEvent_needs_shared_owner σ t th this v k o :
  threads σ !! t = Some th →
  pc th = AsyncEventListener_OnEvent this v k →
  heap σ !! this = Some o → use_count o = None →
  (∀ e d, use_count (AsyncEventListener_new e d) = None) ∧
  (∀ a e d σ1, ∃ o1, heap (AsyncEventListener_Create a e d σ1) !! a = Some o1 ∧
                     use_count o1 = Some 1) ∧
  ∃ σ', run_thread t σ = Next σ' ∧
        σ' = State (heap σ) (vars σ) (pending σ)
               (<[t := goto th (Throw bad_weak_ptr)]> (threads σ)) (log σ) ∧
        pending σ' = pending σ ∧
        run_thread t σ' = Idle.
Proof.
  intros Hth Hpc Ho Hn. split; [done|]. split.
  { intros a e d σ1. eexists. simpl. by rewrite lookup_insert_eq. }
  eexists. split.
  - unfold run_thread. rewrite Hth, Hpc. unfold AsyncEventListener_OnEvent.
    by rewrite Ho, Hn.
  - split; [done|]. split; [done|]. unfold run_thread, update. simpl.
    rewrite list_lookup_insert_eq by (by eapply lookup_lt_Some). done.
Qed.

(** ** More that the header keeps *)

Lemma run_thread_heap t σ σ' :
  run_thread t σ = Next σ' →
  same_locks (heap σ) (heap σ') ∨
  (∃ a o m, heap σ !! a = Some o ∧
     (mutex_lock t (mutex_ o) = Some m ∨ mutex_unlock t (mutex_ o) = Some m) ∧
     heap σ' = <[a := set_mutex o m]> (heap σ)) ∨
  (∃ a o b, heap σ !! a = Some o ∧ heap σ' = <[a := set_muted o b]> (heap σ)).
Proof.
  unfold run_thread. intros Hstep.
  destruct (threads σ !! t) as [th|]; [|done].
  destruct (pc th) as [| |a k|a k|a k|a b k|a k|a c k|a k|a v k|f v k|[x|x v|x] k|k];
    try done.
  - destruct (heap σ !! a) as [o|] eqn:Ho; [|done].
    destruct (mutex_lock t (mutex_ o)) as [m|] eqn:Hm; simplify_eq.
    right; left. eauto 10.
  - destruct (heap σ !! a) as [o|] eqn:Ho; [|done].
    destruct (mutex_unlock t (mutex_ o)) as [m|] eqn:Hm; simplify_eq.
    right; left. eauto 10.
  - destruct (heap σ !! a); simplify_eq. left. apply same_locks_refl.
  - destruct (heap σ !! a) as [o|] eqn:Ho; simplify_eq. right; right. eauto.
  - destruct (heap σ !! a) as [o|] eqn:Ho; [|done]. left.
    destruct (use_count o); simplify_eq;
      [by apply same_locks_insert | apply same_locks_refl].
  - destruct (heap σ !! a); [|done].
    destruct (acquire (shared_this c) (heap σ)) eqn:Hacq; simplify_eq.
    left. by eapply same_locks_acquire.
  - destruct (remove_one a (locals th)); [|done].
    destruct (release a (heap σ)) eqn:Hrel; simplify_eq.
    left. by eapply same_locks_release.
  - destruct (heap σ !! a); simplify_eq. left. apply same_locks_refl.
  - simplify_eq. left. apply same_locks_refl.
  - destruct (vars σ !! x) as [[a|]|]; simplify_eq. left. apply same_locks_refl.
  - destruct (vars σ !! x) as [[a|]|]; simplify_eq. left. apply same_locks_refl.
  - left. destruct (vars σ !! x) as [[a|]|]; simplify_eq;
      try apply same_locks_refl.
    destruct (release a (heap σ)) eqn:Hrel; simplify_eq.
    by eapply same_locks_release.
  - destruct (job th) as [c|]; [|done].
    destruct (release (shared_this c) (heap σ)) eqn:Hrel; simplify_eq.
    left. by eapply same_locks_release.
Qed.

Lemma mutex_sane_step s σ σ' :
  mutex_sane (heap σ) → step s σ = Next σ' → mutex_sane (heap σ').
Proof.
  intros Hs Hstep. destruct s as [t|i]; simpl in Hstep.
  - destruct (run_thread_heap _ _ _ Hstep)
      as [Hsl | [(a & o & m & Ho & Hm & ->) | (a & o & b & Ho & ->)]].
    + intros a o' t' Ho' Hown. destruct (Hsl a o' Ho') as (o & Ho & Hmx & _).
      rewrite Hmx in *. eauto.
    + intros a' o' t' Ho' Hown. destruct (decide (a = a')) as [<-|Hne].
      * rewrite lookup_insert_eq in Ho'. simplify_eq. simpl in *.
        unfold mutex_lock, mutex_unlock in Hm.
        destruct Hm as [Hm | Hm]; repeat case_match; simplify_eq; simpl in *;
          try done; lia.
      * rewrite lookup_insert_ne in Ho' by done. eauto.
    + intros a' o' t' Ho' Hown. destruct (decide (a = a')) as [<-|Hne].
      * rewrite lookup_insert_eq in Ho'. simplify_eq. simpl in *. eauto.
      * rewrite lookup_insert_ne in Ho' by done. eauto.
  - unfold dispatch in Hstep. destruct (pending σ !! i) as [[e c]|]; by simplify_eq.
Qed.

Lemma initial_mutex_sane σ : initial σ = true → mutex_sane (heap σ).
Proof.
  intros (_ & _ & Ho & _)%initial_facts a o t Hl Hown.
  destruct (Ho a o Hl) as [Hn _]. congruence.
Qed.

Lemma reachable_mutex_sane σ0 ss σ :
  initial σ0 = true → exec ss σ0 = Next σ → mutex_sane (heap σ).
Proof.
  intros Hi. apply (exec_invariant (λ σ, mutex_sane (heap σ))).
  - intros s σ1 σ2. apply mutex_sane_step.
  - by apply initial_mutex_sane.
Qed.

(** X2.  A thread that has returned holds nothing: no mutex, no local
    [shared_ptr], no closure.  The [lock_guard]s and the pointers of the
    header are given back on every path. *)
Theorem finished_thread_holds_nothing σ0 ss σ t th :
  initial σ0 = true → exec ss σ0 = Next σ →
  threads σ !! t = Some th → pc th = Return →
  locals th = [] ∧ job th = None ∧
  ∀ a o, heap σ !! a = Some o → owner (mutex_ o) ≠ Some t.
Proof.
  intros Hi Hex Hth Hpc.
  destruct (reachable_locks _ _ _ Hi Hex) as [_ Hts].
  destruct (Hts t th Hth) as (L & Hw & Hh). wf_head Hw Hpc.
  repeat split; try done.
  intros a o Ho Hown.
  pose proof (reachable_mutex_sane _ _ _ Hi Hex a o t Ho Hown) as Hd.
  specialize (Hh a o Ho). unfold lockview in Hh. rewrite decide_True in Hh by done.
  simpl in Hh. lia.
Qed.

Lemma owed_prefix L R J p : wf L R J p → ∃ rest, L = owed p ++ rest.
Proof.
  induction 1 as [ |L R J e|L R J a k _ [rest IH]|L R J a k _ [rest IH]
                 |L R c k k' _ _ _ _ _ [rest IH]|L R J a k _ _ [rest IH]
                 |L R J a k _ [rest IH]|L R J a c k _ _ _ [rest IH]
                 |L R J a k _ [rest IH]|L R J f v k _ [rest IH]
                 |L R J c k _ [rest IH]|L R c k _ [rest IH]]; simpl; eauto.
  - destruct (owed k) as [|b o']; simpl in *; simplify_eq; eauto.
  - exists rest. by rewrite IH.
Qed.

(** X3.  Mutual exclusion.  A thread that is inside a [lock_guard] of a
    listener, be it in [Mute], in the task, or anywhere in the call of the
    delegate, its callback and the user code that runs under it, or that is
    at a read or a write of [muted_] or at the call of the delegate, owns the
    mutex of the listener, and no other thread is in any of these at the same
    time: [Mute] and a delivery exclude each other, as do two deliveries. *)
Theorem critical_operations_exclusive σ0 ss σ t th a o :
  initial σ0 = true → exec ss σ0 = Next σ →
  threads σ !! t = Some th → in_critical a (pc th) = true →
  heap σ !! a = Some o →
  owner (mutex_ o) = Some t ∧
  ∀ t' th', t' ≠ t → threads σ !! t' = Some th' → in_critical a (pc th') = false.
Proof.
  intros Hi Hex Hth Hc Ho.
  destruct (reachable_locks _ _ _ Hi Hex) as [_ Hts].
  assert (Hown : ∀ t th, threads σ !! t = Some th → in_critical a (pc th) = true →
                         owner (mutex_ o) = Some t).
  { clear t th Hth Hc. intros t th Hth Hc.
    destruct (Hts t th Hth) as (L & Hw & Hh).
    assert (a ∈ L) as Ha.
    { unfold in_critical in Hc. apply orb_true_iff in Hc as [Hc | Hc].
      - apply bool_decide_eq_true in Hc.
        destruct Hw as [Hw | (c & k & Hpc & _ & _ & Hk & _)].
        + destruct (owed_prefix _ _ _ _ Hw) as [rest ->].
          apply elem_of_app. by left.
        + rewrite Hpc in Hc. simpl in Hc.
          destruct (owed_prefix _ _ _ _ Hk) as [rest ->].
          apply elem_of_app. by left.
      - destruct (pc th) eqn:Hpc; simpl in Hc; try done;
          apply bool_decide_eq_true in Hc; subst; wf_head Hw Hpc;
          try done; apply list_elem_of_here. }
    by destruct (held_owner _ _ _ _ _ Hh Ha Ho). }
  split; [eauto|].
  intros t' th' Hne Hth'. destruct (in_critical a (pc th')) eqn:Hc'; [|done].
  pose proof (Hown t th Hth Hc). pose proof (Hown t' th' Hth' Hc'). congruence.
Qed.


Lemma pending_refs_none a ps :
  (∀ e c, (e, c) ∈ ps → shared_this c ≠ a) → pending_refs a ps = 0.
Proof.
  unfold pending_refs. induction ps as [|[e c] ps IH]; intros H; simpl; [done|].
  unfold closure_refs at 1. simpl. rewrite decide_False by (eapply H; by left).
  apply IH. intros e' c' Hin. eapply H. by right.
Qed.

(** X5.  Nothing leaks: once no variable points to a listener, no task on it
    is pending and every thread has returned, the listener has been
    destroyed (no object with a control block is left at its address). *)
Theorem no_listener_leak σ0 ss σ a :
  initial σ0 = true → exec ss σ0 = Next σ →
  Some a ∉ vars σ →
  (∀ e c, (e, c) ∈ pending σ → shared_this c ≠ a) →
  (∀ th, th ∈ threads σ → pc th = Return) →
  heap σ !! a ≫= use_count = None.
Proof.
  intros Hi Hex Hv Hp Ht.
  destruct (reachable_refs _ _ _ Hi Hex) as [Hrc Hz].
  destruct (reachable_locks _ _ _ Hi Hex) as [_ Hts].
  assert (Hth : threads_refs a (threads σ) = 0).
  { unfold threads_refs.
    assert (Hall : ∀ th, th ∈ threads σ → thread_refs a th = 0).
    { intros th Hin. destruct (proj1 (list_elem_of_lookup _ _) Hin) as [t Hl].
      destruct (Hts t th Hl) as (L & Hw & _).
      pose proof (Ht th Hin) as Hpc. wf_head Hw Hpc.
      unfold thread_refs.
      repeat match goal with H : _ = locals th |- _ => rewrite <- H end.
      repeat match goal with H : _ = job th |- _ => rewrite <- H end. done. }
    revert Hall. generalize (threads σ). intros l Hall.
    induction l as [|th ths IH]; [done|]. simpl.
    rewrite Hall by (by left). apply IH. intros th' Hin. apply Hall. by right. }
  specialize (Hrc a). unfold holders in Hrc.
  rewrite var_refs_none, pending_refs_none, Hth in Hrc by done.
  unfold strong in Hrc. destruct (heap σ !! a) as [o|] eqn:Ho; [|done]. simpl.
  destruct (use_count o) as [n|] eqn:Hn; [|done]. simpl in Hrc. subst n.
  by destruct (Hz a o Ho).
Qed.

(** X6.  [Mute] does not interrupt a delivery under way.  Once a task is past
    its look at [muted_] and about to call the delegate, nothing the other
    threads do changes that: after any steps of theirs the object is still
    there, not muted and locked by the task, and the task's next step is the
    call of the delegate with its result. *)
Theorem delivery_under_way_completes σ0 ss1 σ1 ss2 σ2 t th a v k :
  initial σ0 = true → exec ss1 σ0 = Next σ1 →
  threads σ1 !! t = Some th → pc th = DelegateOnEvent a v k →
  Forall (λ s, s ≠ Run t) ss2 → exec ss2 σ1 = Next σ2 →
  ∃ o σ3, heap σ2 !! a = Some o ∧ muted_ o = false ∧
          owner (mutex_ o) = Some t ∧
          run_thread t σ2 = Next σ3 ∧
          log σ3 = log σ2 ++ [EvDelegate t a v].
Proof.
  intros Hi H1 Hth Hpc Hall H2.
  pose proof (other_exec_thread _ _ _ _ _ Hall H2 Hth) as Hth2.
  assert (Hex : exec (ss1 ++ ss2) σ0 = Next σ2) by (by rewrite exec_app, H1).
  pose proof (reachable_locks _ _ _ Hi Hex) as [_ Hts].
  pose proof (reachable_refs _ _ _ Hi Hex) as Hrefs.
  destruct (Hts t th Hth2) as (L & Hw & Hh). wf_head Hw Hpc.
  match goal with H : job th = Some ?c |- _ =>
    destruct (holder_alive σ2 (shared_this c)) as (o & n & Ho & Hn);
      eauto using job_holds
  end.
  match goal with H : _ ∈ L |- _ =>
    destruct (held_owner _ _ _ _ _ Hh H Ho) as [Hown _]
  end.
  exists o. eexists. repeat split; eauto.
  - unfold run_thread. rewrite Hth2, Hpc, Ho. done.
  - done.
Qed.

(** X7.  An event posted to a muted listener leaves no trace.  [OnEvent], the
    start of its task and the run of the task to its end give back the objects
    as they were, strong count included, the variables, the queue and the log;
    the caller is past the call and the executor's thread has returned. *)
Theorem muted_event_is_inert σ t th this v k o n :
  threads σ !! t = Some th →
  pc th = AsyncEventListener_OnEvent this v k →
  heap σ !! this = Some o → use_count o = Some (S n) →
  mutex_ o = Mutex None 0 → muted_ o = true →
  exec (run t 3 ++ [Dispatch (length (pending σ))]
          ++ run (length (threads σ)) 4) σ
  = Next (State (heap σ) (vars σ) (pending σ)
            (<[t := goto th k]> (threads σ) ++ [Thread Return [] None])
            (log σ)).
Proof.
  intros Hth Hpc Ho Hn Hmx Hmu.
  assert (Hlt : t < length (threads σ)) by (by eapply lookup_lt_Some).
  rewrite exec_app. erewrite OnEvent_runs by done.
  change ([Dispatch (length (pending σ))] ++ run (length (threads σ)) 4)
    with (Dispatch (length (pending σ)) :: run (length (threads σ)) 3
            ++ run (length (threads σ)) 1).
  rewrite exec_cons. unfold step, dispatch. cbn [pending heap vars threads log].
  rewrite list_lookup_middle by done. cbv beta iota.
  rewrite exec_app.
  rewrite (closure_body_muted_runs _ (length (threads σ))
             (Thread (closure_body (Closure this v) (DropClosure Return)) []
                (Some (Closure this v)))
             (Closure this v) (DropClosure Return) (set_use_count o (S (S n))));
    cbn [pending heap vars threads log pc shared_this].
  - unfold run, replicate, exec, step, run_thread. cbn [threads].
    rewrite list_lookup_insert_eq
      by (rewrite length_app, length_insert; simpl; lia).
    cbn [goto pc job locals]. unfold release. cbn [shared_this heap].
    rewrite lookup_insert_eq. cbn [set_use_count use_count].
    unfold update. cbn [heap vars pending threads log].
    rewrite list_insert_insert_eq, insert_insert_eq.
    f_equal. f_equal.
    + rewrite insert_id; [done|]. rewrite Ho. f_equal. destruct o; simpl in *. by subst.
    + by rewrite delete_middle, app_nil_r.
    + rewrite insert_app_r_alt by (by rewrite length_insert).
      by rewrite length_insert, Nat.sub_diag.
  - apply list_lookup_middle. by rewrite length_insert.
  - done.
  - by rewrite lookup_insert_eq.
  - left. done.
  - done.
Qed.

Lemma deliveries_user_code cs k : deliveries (user_code cs k) = deliveries k.
Proof. induction cs; simpl; auto. Qed.

Lemma calls_by_snoc t l e :
  calls_by t (l ++ [e]) = calls_by t l + calls_by t [e].
Proof. unfold calls_by. by rewrite sum_list_with_app. Qed.

(** What one operation of a thread does to its own code and to the log. *)
Lemma run_thread_summary t σ σ' :
  run_thread t σ = Next σ' →
  ∃ th th', threads σ !! t = Some th ∧ threads σ' = <[t := th']> (threads σ) ∧
    ((log σ' = log σ ∧ deliveries (pc th') ≤ deliveries (pc th)) ∨
     (∃ a v, log σ' = log σ ++ [EvDelegate t a v] ∧
             S (deliveries (pc th')) ≤ deliveries (pc th)) ∨
     (∃ f v, log σ' = log σ ++ [EvCallback t f v] ∧
             deliveries (pc th') ≤ deliveries (pc th))).
Proof.
  unfold run_thread. intros Hstep.
  destruct (threads σ !! t) as [th|] eqn:Hth; [|done].
  destruct (pc th) as [| |a k|a k|a k|a b k|a k|a c k|a k|a v k|f v k|[x|x v|x] k|k] eqn:Hpc;
    try done.
  all: repeat case_match; simplify_eq; eexists _, _; (split; [done|]);
    (split; [done|]); rewrite Hpc; simpl; rewrite ?deliveries_user_code;
    try (left; split; [done | lia]).
  - left. split; [done|]. destruct (muted_ _); lia.
  - right; left. do 2 eexists. split; [done|].
    match goal with |- context [EventListener_OnEvent ?d _ _] => destruct d end.
    simpl. lia.
  - right; right. eauto.
Qed.

Lemma once_step s σ σ' : once_inv σ → step s σ = Next σ' → once_inv σ'.
Proof.
  intros [Hone Hnew] Hstep. destruct s as [t|i]; simpl in Hstep.
  - destruct (run_thread_summary _ _ _ Hstep) as (th & th' & Hth & Hths & Hlog).
    assert (Hlt : t < length (threads σ)) by (by eapply lookup_lt_Some).
    assert (Hother : ∀ t0, t0 ≠ t → calls_by t0 (log σ') = calls_by t0 (log σ)).
    { intros t0 Hne.
      destruct Hlog as [[-> _] | [(a & v & -> & _) | (f & v & -> & _)]]; [done| |];
        rewrite calls_by_snoc; unfold calls_by; simpl;
        rewrite ?decide_False by done; lia. }
    split.
    + intros t0 th0. rewrite Hths. intros Hl.
      apply list_lookup_insert_Some in Hl as [(<- & <- & _) | [Hne Hl]].
      * specialize (Hone t th Hth).
        destruct Hlog as [[-> ?] | [(a & v & -> & ?) | (f & v & -> & ?)]]; [lia| |];
          rewrite calls_by_snoc; unfold calls_by in *; simpl;
          rewrite ?decide_True by done; lia.
      * rewrite Hother by done. eauto.
    + intros t0. rewrite Hths, length_insert. intros Hle.
      rewrite Hother by lia. auto.
  - unfold dispatch in Hstep. destruct (pending σ !! i) as [[e c]|]; simplify_eq.
    split; simpl.
    + intros t th Hl. apply lookup_app_Some in Hl as [Hl | [Hge Hl]]; [eauto|].
      apply list_lookup_singleton_Some in Hl as [Ht <-]. simpl.
      rewrite Hnew by lia. lia.
    + intros t. rewrite length_app. simpl. intros Hle. apply Hnew. lia.
Qed.

Lemma deliveries_is_user_code k : is_user_code k = true → deliveries k = 0.
Proof. induction k; simpl; try done; auto. Qed.

(** X8.  No double delivery: the thread that runs a task calls the delegate
    at most once, whatever the callback does and whatever else runs. *)
Theorem task_delivers_at_most_once σ0 ss σ t :
  initial σ0 = true → log σ0 = [] → exec ss σ0 = Next σ →
  calls_by t (log σ) ≤ 1.
Proof.
  intros Hi Hlog Hex.
  assert (Hinv : once_inv σ).
  { eapply (exec_invariant once_inv); [apply once_step| |done].
    destruct (initial_facts _ Hi) as (_ & Ht & _). unfold once_inv. rewrite Hlog.
    split.
    - intros t0 th Hl. destruct (Ht th) as (Hu & _); [by eapply list_elem_of_lookup_2|].
      rewrite deliveries_is_user_code by done. simpl. lia.
    - done. }
  destruct Hinv as [Hone Hnew].
  destruct (threads σ !! t) as [th|] eqn:Hth.
  - specialize (Hone t th Hth). lia.
  - rewrite Hnew; [lia|]. by apply lookup_ge_None.
Qed.

(** A task on a listener that is not muted, whose callback leaves the
    listeners alone, run to its end: six operations, the last of which
    destroys the closure. *)
Lemma task_runs_to_end σ t c o f n :
  threads σ !! t = Some (Thread (closure_body c (DropClosure Return)) [] (Some c)) →
  heap σ !! shared_this c = Some o → mutex_ o = Mutex None 0 →
  muted_ o = false → delegate_ o = CallbackEventListener f →
  f (maybe_value c) = [] → use_count o = Some (S (S n)) →
  exec (run t 6) σ =
    Next (State (<[shared_this c := set_use_count o (S n)]> (heap σ))
            (vars σ) (pending σ)
            (<[t := Thread Return [] None]> (threads σ))
            (log σ ++ [EvDelegate t (shared_this c) (maybe_value c);
                       EvCallback t f (maybe_value c)])).
Proof.
  intros Hth Ho Hmx Hmu Hd Hf Hn.
  assert (Hlt : t < length (threads σ)) by (by eapply lookup_lt_Some).
  change (run t 6) with (run t 4 ++ run t 2). rewrite exec_app.
  destruct (closure_body_delivers σ t _ c (DropClosure Return) o f Hth eq_refl Ho)
    as (m1 & Hl & ->); [by left|done|done|].
  rewrite Hf. unfold mutex_lock in Hl. rewrite Hmx in Hl. simpl in Hl. simplify_eq.
  unfold run, replicate. rewrite !exec_cons.
  run_step. unfold mutex_unlock. simpl. rewrite decide_True by done. simpl.
  run_step. unfold release. rewrite lookup_insert_eq. simpl. rewrite Hn.
  unfold update. simpl. rewrite ?insert_insert_eq, ?list_insert_insert_eq.
  do 3 f_equal. destruct o; simpl in *. by subst.
Qed.

Lemma delivered_task a l t f v :
  delivered a (l ++ [EvDelegate t a v; EvCallback t f v]) = delivered a l ++ [v].
Proof.
  unfold delivered, delegate_calls. rewrite omap_app, fmap_app. simpl.
  by rewrite decide_True.
Qed.

(** X9.  Order is kept.  When the pending tasks of a listener that is not
    muted are started oldest first and each is run to its end before the
    next, by a callback that leaves the listener alone, the delegate is given
    their results in the order of the queue, which is the order of the
    [OnEvent] calls; the queue ends empty and each closure has given back its
    reference. *)
Theorem serial_delivery_in_order a e f vs :
  ∀ σ o m,
    heap σ !! a = Some o → mutex_ o = Mutex None 0 → muted_ o = false →
    delegate_ o = CallbackEventListener f → (∀ v, f v = []) →
    use_count o = Some (length vs + S m) →
    pending σ = (λ v, (e, Closure a v)) <$> vs →
    ∃ σ' o', exec (serial (length (threads σ)) (length vs)) σ = Next σ' ∧
             delivered a (log σ') = delivered a (log σ) ++ vs ∧
             pending σ' = [] ∧
             heap σ' !! a = Some o' ∧ use_count o' = Some (S m) ∧
             muted_ o' = false.
Proof.
  induction vs as [|v vs IH]; intros σ o m Ho Hmx Hmu Hd Hf Hn Hp.
  - exists σ, o. simpl. rewrite app_nil_r. eauto 10.
  - set (σ1 := State (heap σ) (vars σ) ((λ v0, (e, Closure a v0)) <$> vs)
                 (threads σ ++ [Thread (closure_body (Closure a v) (DropClosure Return))
                                  [] (Some (Closure a v))]) (log σ)).
    assert (Hdisp : step (Dispatch 0) σ = Next σ1).
    { unfold step, dispatch. by rewrite Hp. }
    change (serial (length (threads σ)) (length (v :: vs)))
      with (Dispatch 0 :: run (length (threads σ)) 6
              ++ serial (S (length (threads σ))) (length vs)).
    rewrite exec_cons, Hdisp, exec_app.
    rewrite (task_runs_to_end σ1 (length (threads σ)) (Closure a v) o f
               (length vs + m)); subst σ1;
      cbn [heap vars pending threads log shared_this maybe_value].
    + destruct (IH (State (<[a := set_use_count o (S (length vs + m))]> (heap σ)) (vars σ)
                      ((λ v0, (e, Closure a v0)) <$> vs)
                      (<[length (threads σ) := Thread Return [] None]>
                         (threads σ ++ [Thread (closure_body (Closure a v) (DropClosure Return))
                                          [] (Some (Closure a v))]))
                      (log σ ++ [EvDelegate (length (threads σ)) a v;
                                 EvCallback (length (threads σ)) f v]))
                  (set_use_count o (S (length vs + m))) m)
        as (σ' & o' & Hex & Hdel & Hpe & Ho' & Hn' & Hm'); simpl; try done.
      * by rewrite lookup_insert_eq.
      * do 2 f_equal. lia.
      * exists σ', o'. cbn [threads] in Hex.
        rewrite length_insert, length_app in Hex. simpl in Hex.
        rewrite Nat.add_1_r in Hex. split; [done|].
        cbn [log] in Hdel. rewrite delivered_task, <- app_assoc in Hdel. eauto.
    + by apply list_lookup_middle.
    + done.
    + done.
    + done.
    + done.
    + apply Hf.
    + rewrite Hn. f_equal. simpl. lia.
Qed.

Lemma no_invoke_user_code cs k : no_invoke k → no_invoke (user_code cs k).
Proof. intros H. induction cs; simpl; auto. Qed.

Lemma no_invoke_is_user_code k : is_user_code k = true → no_invoke k.
Proof. induction k; simpl; try done; auto. Qed.

(** What a step of thread [t] leaves of an object another thread has
    locked: everything but the strong count. *)
Lemma locked_by_other t σ σ' t0 a o :
  locks_inv σ → run_thread t σ = Next σ' → t0 ≠ t →
  heap σ !! a = Some o → owner (mutex_ o) = Some t0 →
  ∀ o', heap σ' !! a = Some o' →
    mutex_ o' = mutex_ o ∧ muted_ o' = muted_ o ∧ delegate_ o' = delegate_ o.
Proof.
  intros [_ Hts] Hstep Hne Ho Hown o' Ho'.
  unfold run_thread in Hstep.
  destruct (threads σ !! t) as [th|] eqn:Hth; [|done].
  destruct (Hts t th Hth) as (L & Hw & Hh).
  assert (Hsame : ∀ h, same_locks (heap σ) h → h !! a = Some o' →
            mutex_ o' = mutex_ o ∧ muted_ o' = muted_ o ∧ delegate_ o' = delegate_ o).
  { intros h Hs Hl. destruct (Hs a o' Hl) as (o1 & Ho1 & ? & ? & _ & ?).
    by simplify_eq. }
  destruct (pc th) as [| |b k|b k|b k|b m k|b k|b c k|b k|b v k|f v k|[x|x v|x] k|k] eqn:Hpc;
    try done.
  - destruct (heap σ !! b) as [ob|] eqn:Hob; [|done].
    destruct (mutex_lock t (mutex_ ob)) as [m|] eqn:Hm; simplify_eq. simpl in Ho'.
    destruct (decide (b = a)) as [->|Hba].
    + simplify_eq. unfold mutex_lock in Hm. rewrite Hown in Hm.
      by rewrite decide_False in Hm.
    + rewrite lookup_insert_ne in Ho' by done. by simplify_eq.
  - destruct (heap σ !! b) as [ob|] eqn:Hob; [|done].
    destruct (mutex_unlock t (mutex_ ob)) as [m|] eqn:Hm; simplify_eq. simpl in Ho'.
    destruct (decide (b = a)) as [->|Hba].
    + simplify_eq. unfold mutex_unlock in Hm. rewrite Hown in Hm.
      by rewrite decide_False in Hm.
    + rewrite lookup_insert_ne in Ho' by done. by simplify_eq.
  - destruct (heap σ !! b); simplify_eq. simpl in Ho'. by simplify_eq.
  - destruct (heap σ !! b) as [ob|] eqn:Hob; simplify_eq. simpl in Ho'.
    destruct (decide (b = a)) as [->|Hba].
    + simplify_eq. wf_head Hw Hpc.
      match goal with H : a ∈ L, H2 : heap σ !! a = Some _ |- _ =>
        destruct (held_owner _ _ _ _ _ Hh H H2) as [Hown' _] end.
      congruence.
    + rewrite lookup_insert_ne in Ho' by done. by simplify_eq.
  - destruct (heap σ !! b) as [ob|] eqn:Hob; [|done].
    destruct (use_count ob); simplify_eq; simpl in Ho'.
    + eapply Hsame; [|exact Ho']. by eapply same_locks_insert.
    + by simplify_eq.
  - destruct (heap σ !! b); [|done].
    destruct (acquire (shared_this c) (heap σ)) eqn:Hacq; simplify_eq.
    eapply Hsame; [|exact Ho']. by eapply same_locks_acquire.
  - destruct (remove_one b (locals th)); [|done].
    destruct (release b (heap σ)) eqn:Hrel; simplify_eq.
    eapply Hsame; [|exact Ho']. by eapply same_locks_release.
  - destruct (heap σ !! b); simplify_eq. simpl in Ho'. by simplify_eq.
  - simplify_eq. simpl in Ho'. by simplify_eq.
  - destruct (vars σ !! x) as [[b|]|]; simplify_eq. simpl in Ho'. by simplify_eq.
  - destruct (vars σ !! x) as [[b|]|]; simplify_eq. simpl in Ho'. by simplify_eq.
  - destruct (vars σ !! x) as [[b|]|]; simplify_eq; simpl in Ho'; try by simplify_eq.
    destruct (release b (heap σ)) eqn:Hrel; simplify_eq.
    eapply Hsame; [|exact Ho']. by eapply same_locks_release.
  - destruct (job th) as [c|]; [|done].
    destruct (release (shared_this c) (heap σ)) eqn:Hrel; simplify_eq.
    eapply Hsame; [|exact Ho']. by eapply same_locks_release.
Qed.

(** What a step of thread [t] does to its own code, as far as callbacks go. *)
Lemma invoking_own_step t σ σ' th :
  locks_inv σ → run_thread t σ = Next σ' →
  threads σ !! t = Some th → invoking σ t th →
  ∃ th', threads σ' !! t = Some th' ∧ invoking σ' t th'.
Proof.
  intros [_ Hts] Hstep Hth Hinv.
  assert (Hlt : t < length (threads σ)) by (by eapply lookup_lt_Some).
  destruct (Hts t th Hth) as (L & Hw & Hh).
  unfold run_thread in Hstep. rewrite Hth in Hstep. unfold invoking in Hinv.
  destruct (pc th) as [| |b k|b k|b k|b m k|b k|b c k|b k|b v k|f v k|[x|x v|x] k|k] eqn:Hpc;
    try done.
  all: try (destruct Hinv as [Hno | (? & ? & ? & ? & ? & ?)]; [|done]; simpl in Hno).
  all: try (repeat case_match; simplify_eq; eexists;
            (split; [simpl; by apply list_lookup_insert_eq|]);
            left; simpl; tauto).
  - (* LoadMuted *)
    destruct (heap σ !! b) as [o|]; simplify_eq. eexists.
    split; [simpl; by apply list_lookup_insert_eq|].
    left. simpl. destruct (muted_ o); tauto.
  - (* DelegateOnEvent *)
    destruct (heap σ !! b) as [o|] eqn:Ho; simplify_eq. eexists.
    split; [simpl; by apply list_lookup_insert_eq|].
    wf_head Hw Hpc.
    match goal with H : _ ∈ L |- _ =>
      destruct (held_owner _ _ _ _ _ Hh H Ho) as [Hown _] end.
    right. simpl. destruct (delegate_ o) as [f] eqn:Hd. simpl.
    unfold CallbackEventListener_OnEvent. do 4 eexists. eauto 10.
  - (* Invoke *)
    destruct Hinv as [Hno | (f' & k' & c & o & Heq & Hk & _)]; [done|].
    simplify_eq. eexists. split; [simpl; by apply list_lookup_insert_eq|].
    left. simpl. by apply no_invoke_user_code.
Qed.

Lemma callback_step s σ σ' :
  locks_inv σ → refs_inv σ' → callback_inv σ → step s σ = Next σ' →
  callback_inv σ'.
Proof.
  intros Hlocks Hrefs' Hcb Hstep. destruct s as [t|i]; simpl in Hstep.
  - intros t0 th0 Hth0. destruct (decide (t0 = t)) as [->|Hne].
    + assert (is_Some (threads σ !! t)) as [th Hth].
      { unfold run_thread in Hstep. destruct (threads σ !! t); [eauto|done]. }
      destruct (invoking_own_step _ _ _ _ Hlocks Hstep Hth (Hcb t th Hth))
        as (th' & Hth' & Hinv).
      by simplify_eq.
    + assert (Hold : threads σ !! t0 = Some th0).
      { destruct (run_thread_summary _ _ _ Hstep) as (th & th' & _ & Hths & _).
        rewrite Hths in Hth0. by rewrite list_lookup_insert_ne in Hth0. }
      destruct (Hcb t0 th0 Hold) as [Hno | (f & k & c & o & Hpc & Hk & Hj & Ho & Hd & Hown & Hm)];
        [by left | right].
      destruct (holder_alive σ' (shared_this c)) as (o' & n & Ho' & _);
        eauto using job_holds.
      destruct (locked_by_other _ _ _ _ _ _ Hlocks Hstep Hne Ho Hown o' Ho')
        as (Hmx & Hmu & Hde).
      exists f, k, c, o'. rewrite Hmx, Hmu, Hde. eauto 10.
  - unfold dispatch in Hstep. destruct (pending σ !! i) as [[e c]|]; simplify_eq.
    intros t th Hl. simpl in Hl.
    apply lookup_app_Some in Hl as [Hl | [Hge Hl]]; [by apply Hcb|].
    apply list_lookup_singleton_Some in Hl as [Ht <-]. left. simpl. tauto.
Qed.

Lemma reachable_callback σ0 ss σ :
  initial σ0 = true → exec ss σ0 = Next σ → callback_inv σ.
Proof.
  intros Hi Hex.
  apply (exec_invariant (λ σ, locks_inv σ ∧ refs_inv σ ∧ callback_inv σ)) in Hex;
    [tauto| |].
  - intros s σ1 σ2 (Hl & Hr & Hc) Hs.
    pose proof (refs_step _ _ _ Hr Hs). eauto using locks_step, callback_step.
  - split; [by apply initial_locks|]. split; [by apply initial_refs|].
    intros t th Hl. left. apply no_invoke_is_user_code.
    destruct (initial_facts _ Hi) as (_ & Ht & _).
    by destruct (Ht th) as (Hu & _); [by eapply list_elem_of_lookup_2|].
Qed.

(** X11.  The callback itself is under the same protection as the delegate:
    in every reachable state, a step that calls a callback is made by a thread
    that runs a closure, the callback is the one of the delegate of the
    closure's listener, the argument is the result in the closure, the thread
    holds the mutex of that listener, and the listener is not muted. *)
Theorem callback_called_under_lock_unmuted σ0 ss σ s σ' t f v :
  initial σ0 = true → exec ss σ0 = Next σ →
  step s σ = Next σ' → log σ' = log σ ++ [EvCallback t f v] →
  ∃ th c o, threads σ !! t = Some th ∧ job th = Some c ∧ maybe_value c = v ∧
            heap σ !! shared_this c = Some o ∧
            delegate_ o = CallbackEventListener f ∧
            owner (mutex_ o) = Some t ∧ muted_ o = false.
Proof.
  intros Hi Hex Hstep Hlog.
  pose proof (reachable_callback _ _ _ Hi Hex) as Hcb.
  assert (∃ th k, threads σ !! t = Some th ∧ pc th = Invoke f v k) as (th & k & Hth & Hpc).
  { destruct s as [t'|i]; simpl in Hstep.
    - unfold run_thread in Hstep.
      destruct (threads σ !! t') as [th|] eqn:Hth; [|done].
      destruct (pc th) eqn:Hpc; repeat case_match; simplify_eq; simpl in Hlog;
        try (apply (f_equal length) in Hlog; rewrite length_app in Hlog;
             simpl in Hlog; lia);
        apply app_inv_head in Hlog; simplify_eq; eauto.
    - unfold dispatch in Hstep. repeat case_match; simplify_eq. simpl in Hlog.
      apply (f_equal length) in Hlog. rewrite length_app in Hlog. simpl in Hlog. lia. }
  destruct (Hcb t th Hth) as [Hno | (f' & k' & c & o & Heq & _ & Hj & Ho & Hd & Hown & Hm)].
  - rewrite Hpc in Hno. done.
  - rewrite Hpc in Heq. simplify_eq. exists th, c, o. eauto 10.
Qed.

End event_listener.

(** * The scenarios of the header, evaluated

    Payloads are integers and errors are codes.  The listener is at address 1,
    variable 0 holds it, thread 0 is the client and thread 1 the thread the
    executor starts. *)

Abbreviation quiet := (@quiet_callback Z nat).
Abbreviation unsubscribing := (@unsubscribing_callback Z nat).

(** [OnEvent(5)], then [Mute()] before the executor runs the task, then the
    task: the delegate is not called. *)
Example mute_before_dispatch :
  let σ := after (run 0 8 ++ [Dispatch 0] ++ run 1 4)
             (scenario quiet [UOnEvent 0 (ValueOk 5%Z); UMute 0]) in
  log σ = [] ∧ pending σ = [] ∧ (λ th, pc th) <$> threads σ = [Return; Return].
Proof. vm_compute. done. Qed.

(** [OnEvent(5)] run to its end, then [Mute()], then [OnEvent(6)] and its
    task: the delegate is called once in all, with 5. *)
Example mute_after_delivery :
  let σ := after (run 0 4 ++ [Dispatch 0] ++ run 1 6 ++ run 0 8
                    ++ [Dispatch 0] ++ run 2 4)
             (scenario quiet [UOnEvent 0 (ValueOk 5%Z); UMute 0;
                              UOnEvent 0 (ValueOk 6%Z)]) in
  delegate_calls 1 (log σ) = [(1, ValueOk 5%Z)] ∧
  (λ th, pc th) <$> threads σ = [Return; Return; Return].
Proof. vm_compute. done. Qed.

(** The owner posts an error and drops its reference at once; the task still
    finds the object, delivers, and the object goes with the closure. *)
Example reset_while_queued :
  let σ0 := scenario quiet [UOnEvent 0 (StatusError 14); UReset 0] in
  let σ1 := after (run 0 5) σ0 in
  let σ2 := after (run 0 5 ++ [Dispatch 0] ++ run 1 5) σ0 in
  let σ3 := after (run 0 5 ++ [Dispatch 0] ++ run 1 6) σ0 in
  vars σ1 = [None] ∧ (use_count <$> heap σ1 !! 1%positive) = Some (Some 1) ∧
  delegate_calls 1 (log σ2) = [(1, StatusError 14)] ∧
  is_Some (heap σ2 !! 1%positive) ∧
  heap σ3 = ∅ ∧ (λ th, pc th) <$> threads σ3 = [Return; Return].
Proof. vm_compute. repeat split; eauto. Qed.

(** The delegate unsubscribes from within its own call: the nested [Mute]
    runs under the lock the task holds, and the task runs to its end. *)
Example mute_from_delegate :
  let σ := after (run 0 4 ++ [Dispatch 0] ++ run 1 10)
             (scenario unsubscribing [UOnEvent 0 (ValueOk 5%Z)]) in
  delegate_calls 1 (log σ) = [(1, ValueOk 5%Z)] ∧
  (muted_ <$> heap σ !! 1%positive) = Some true ∧
  (mutex_ <$> heap σ !! 1%positive) = Some (Mutex None 0) ∧
  (λ th, pc th) <$> threads σ = [Return; Return].
Proof. vm_compute. done. Qed.

(** * The theorems at work on the scenarios *)

Lemma mute_suppresses_later_delivery_witness :
  let σ0 := scenario quiet [UOnEvent 0 (ValueOk 5%Z); UMute 0] in
  ∃ l, log (after (run 0 5 ++ run 0 3 ++ [Dispatch 0] ++ run 1 4) σ0)
       = log (after (run 0 5 ++ run 0 3) σ0) ++ l ∧
       ∀ t v, EvDelegate t 1%positive v ∉ l.
Proof.
  intros σ0.
  apply (proj1 mute_suppresses_later_delivery σ0
           (run 0 5) (after (run 0 5) σ0) 0
           (Thread (AsyncEventListener_Mute 1%positive Return) [] None)
           1%positive Return
           (run 0 3) (after (run 0 5 ++ run 0 3) σ0)
           ([Dispatch 0] ++ run 1 4)
           (after (run 0 5 ++ run 0 3 ++ [Dispatch 0] ++ run 1 4) σ0));
    vm_compute; reflexivity.
Defined.

Lemma delegate_called_under_lock_unmuted_witness :
  let σ := after (run 0 4 ++ [Dispatch 0] ++ run 1 2)
             (scenario quiet [UOnEvent 0 (ValueOk 5%Z)]) in
  ∃ o, heap σ !! 1%positive = Some o ∧ owner (mutex_ o) = Some 1 ∧
       0 < depth (mutex_ o) ∧ muted_ o = false.
Proof.
  intros σ.
  refine (proj1 (delegate_called_under_lock_unmuted
                   (scenario quiet [UOnEvent 0 (ValueOk 5%Z)])
                   (run 0 4 ++ [Dispatch 0] ++ run 1 2) σ _ _)
            (Run 1) (after [Run 1] σ) 1 1%positive (ValueOk 5%Z) _ _);
    vm_compute; reflexivity.
Defined.

Lemma muted_monotonic_witness :
  let σ0 := scenario quiet [UOnEvent 0 (ValueOk 5%Z); UMute 0] in
  let o2 := Listener 0 (EventListener_Create quiet) (Mutex None 0) true (Some 1) in
  heap (after (run 0 8 ++ [Dispatch 0] ++ run 1 4) σ0) !! 1%positive = Some o2 ∧
  muted_ o2 = true.
Proof.
  intros σ0 o2. split; [vm_compute; reflexivity|].
  refine (proj2 (proj2 muted_monotonic) σ0 (run 0 8) (after (run 0 8) σ0)
            ([Dispatch 0] ++ run 1 4) (after (run 0 8 ++ [Dispatch 0] ++ run 1 4) σ0)
            1%positive
            (Listener 0 (EventListener_Create quiet) (Mutex None 0) true (Some 2))
            o2 _ _ _ _ _ _);
    vm_compute; reflexivity.
Defined.

Lemma OnEvent_submits_once_witness :
  let σ := after [Run 0] (scenario quiet [UOnEvent 0 (StatusError 14)]) in
  ∃ σ', exec (run 0 3) σ = Next σ' ∧
        log σ' = log σ ∧
        pending σ' = pending σ ++ [(0, Closure 1%positive (StatusError 14))] ∧
        heap σ' = <[1%positive := Listener 0 (EventListener_Create quiet)
                                     (Mutex None 0) false (Some 2)]> (heap σ) ∧
        threads σ' = <[0 := Thread Return [] None]> (threads σ) ∧
        vars σ' = vars σ.
Proof.
  intros σ.
  apply (OnEvent_submits_once σ 0
           (Thread (AsyncEventListener_OnEvent 1%positive (StatusError 14) Return) [] None)
           1%positive (StatusError 14) Return
           (Listener 0 (EventListener_Create quiet) (Mutex None 0) false (Some 1)) 1);
    vm_compute; reflexivity.
Defined.

Lemma Mute_idempotent_witness :
  let σ := after (run 0 4) (scenario quiet [UMute 0]) in
  let o := Listener 0 (EventListener_Create quiet) (Mutex None 0) true (Some 1) in
  (muted_ o = true →
   exec (run 0 3) (set_pc 0 (AsyncEventListener_Mute 1%positive Return) σ)
   = Next (set_pc 0 Return σ)) ∧
  exec (run 0 6)
    (set_pc 0 (AsyncEventListener_Mute 1%positive
                 (AsyncEventListener_Mute 1%positive Return)) σ)
  = exec (run 0 3) (set_pc 0 (AsyncEventListener_Mute 1%positive Return) σ) ∧
  ∃ σ', exec (run 0 3) (set_pc 0 (AsyncEventListener_Mute 1%positive Return) σ) = Next σ' ∧
        heap σ' = <[1%positive := set_muted o true]> (heap σ).
Proof.
  intros σ o.
  apply (Mute_idempotent σ 0 1%positive Return o).
  - vm_compute. lia.
  - vm_compute. reflexivity.
  - left. reflexivity.
Defined.

Lemma delivery_forwards_payload_witness :
  let σ := after [Run 0] (scenario quiet [UOnEvent 0 (StatusError 14)]) in
  ∃ σ', exec (run 0 3 ++ [Dispatch (length (pending σ))]
                ++ run (length (threads σ)) 4) σ = Next σ' ∧
        log σ' = log σ ++ [EvDelegate (length (threads σ)) 1%positive (StatusError 14);
                           EvCallback (length (threads σ)) quiet (StatusError 14)].
Proof.
  intros σ.
  apply (proj2 delivery_forwards_payload σ 0
           (Thread (AsyncEventListener_OnEvent 1%positive (StatusError 14) Return) [] None)
           1%positive (StatusError 14) Return
           (Listener 0 (EventListener_Create quiet) (Mutex None 0) false (Some 1)) 1
           quiet);
    vm_compute; reflexivity.
Defined.

Lemma queued_task_keeps_listener_alive_witness :
  let σ := after (run 0 5) (scenario quiet [UOnEvent 0 (StatusError 14); UReset 0]) in
  (∀ e c, (e, c) ∈ pending σ →
     ∃ o n, heap σ !! shared_this c = Some o ∧ use_count o = Some (S n)) ∧
  (∀ t th c, threads σ !! t = Some th → job th = Some c →
     (∃ o n, heap σ !! shared_this c = Some o ∧ use_count o = Some (S n)) ∧
     run_thread t σ ≠ Crash (UseAfterFree (shared_this c))) ∧
  (∀ t th f, threads σ !! t = Some th → run_thread t σ = Crash f →
     (∃ x, f = NullDeref x) ∨ (∃ a, f = UseAfterFree a ∧ thread_refs a th = 0)).
Proof.
  intros σ.
  apply (queued_task_keeps_listener_alive
           (scenario quiet [UOnEvent 0 (StatusError 14); UReset 0]) (run 0 5) σ);
    vm_compute; reflexivity.
Defined.

Lemma reentrant_Mute_no_deadlock_witness :
  let σ := after (run 0 4 ++ [Dispatch 0] ++ run 1 5)
             (scenario unsubscribing [UOnEvent 0 (ValueOk 5%Z)]) in
  let k := Unlock 1%positive (DropClosure Return) in
  let th := Thread (AsyncEventListener_Mute 1%positive k) []
              (Some (Closure 1%positive (ValueOk 5%Z))) in
  let o := Listener 0 (EventListener_Create unsubscribing) (Mutex (Some 1) 1) false (Some 2) in
  run_thread 1 σ ≠ Blocked ∧
  exec (run 1 3) σ =
    Next (State (<[1%positive := set_muted o true]> (heap σ)) (vars σ) (pending σ)
            (<[1 := goto th k]> (threads σ)) (log σ)) ∧
  (∀ t' th' k', t' ≠ 1 → threads σ !! t' = Some th' →
     pc th' = AsyncEventListener_Mute 1%positive k' → run_thread t' σ = Blocked).
Proof.
  intros σ k th o.
  apply (reentrant_Mute_no_deadlock σ 1 th 1%positive k o).
  - vm_compute. reflexivity.
  - reflexivity.
  - vm_compute. reflexivity.
  - reflexivity.
  - vm_compute. lia.
Defined.

Lemma callback_listener_forwards_witness :
  let k := EventListener_OnEvent (EventListener_Create quiet) (StatusError 14) Return in
  EventListener_Create quiet = CallbackEventListener quiet ∧
  run_thread 0 (bare quiet k) =
    Next (State (heap (bare quiet k)) [] []
            [Thread (user_code (quiet (StatusError 14)) Return) [] None]
            [EvCallback 0 quiet (StatusError 14)]).
Proof.
  intros k.
  apply (callback_listener_forwards (bare quiet k) 0 (Thread k [] None)
           quiet (StatusError 14) Return); reflexivity.
Defined.

Lemma OnEvent_needs_shared_owner_witness :
  let k := AsyncEventListener_OnEvent 1%positive (ValueOk 5%Z) Return in
  ∃ σ', run_thread 0 (bare quiet k) = Next σ' ∧
        σ' = State (heap (bare quiet k)) [] []
               [Thread (Throw bad_weak_ptr) [] None] [] ∧
        pending σ' = [] ∧
        run_thread 0 σ' = Idle.
Proof.
  intros k.
  apply (OnEvent_needs_shared_owner (bare quiet k) 0 (Thread k [] None)
           1%positive (ValueOk 5%Z) Return
           (AsyncEventListener_new 0 (EventListener_Create quiet)));
    reflexivity.
Defined.

Lemma finished_thread_holds_nothing_witness :
  let σ := after (run 0 8 ++ [Dispatch 0] ++ run 1 4)
             (scenario quiet [UOnEvent 0 (ValueOk 5%Z); UMute 0]) in
  let th : @thread Z nat := Thread Return [] None in
  locals th = [] ∧ job th = None ∧
  ∀ a o, heap σ !! a = Some o → owner (mutex_ o) ≠ Some 1.
Proof.
  intros σ th.
  apply (finished_thread_holds_nothing
           (scenario quiet [UOnEvent 0 (ValueOk 5%Z); UMute 0])
           (run 0 8 ++ [Dispatch 0] ++ run 1 4) σ 1 th);
    vm_compute; reflexivity.
Defined.

Lemma critical_operations_exclusive_witness :
  let σ := after (run 0 4 ++ [Dispatch 0] ++ run 1 3 ++ run 0 1)
             (scenario quiet [UOnEvent 0 (ValueOk 5%Z); UMute 0]) in
  let o := Listener 0 (EventListener_Create quiet) (Mutex (Some 1) 1) false (Some 2) in
  owner (mutex_ o) = Some 1 ∧
  ∀ t' th', t' ≠ 1 → threads σ !! t' = Some th' →
            in_critical 1%positive (pc th') = false.
Proof.
  intros σ o.
  apply (critical_operations_exclusive
           (scenario quiet [UOnEvent 0 (ValueOk 5%Z); UMute 0])
           (run 0 4 ++ [Dispatch 0] ++ run 1 3 ++ run 0 1) σ 1
           (Thread (Invoke quiet (ValueOk 5%Z)
                      (Unlock 1%positive (DropClosure Return)))
              [] (Some (Closure 1%positive (ValueOk 5%Z))))
           1%positive o);
    vm_compute; reflexivity.
Defined.


Lemma no_listener_leak_witness :
  let σ := after (run 0 5 ++ [Dispatch 0] ++ run 1 6)
             (scenario quiet [UOnEvent 0 (StatusError 14); UReset 0]) in
  heap σ !! 1%positive ≫= use_count = None.
Proof.
  intros σ.
  apply (no_listener_leak
           (scenario quiet [UOnEvent 0 (StatusError 14); UReset 0])
           (run 0 5 ++ [Dispatch 0] ++ run 1 6) σ 1%positive).
  - vm_compute. reflexivity.
  - vm_compute. reflexivity.
  - replace (vars σ) with [@None positive] by (vm_compute; reflexivity).
    intros [?|?%elem_of_nil]%elem_of_cons; done.
  - replace (pending σ) with (@nil (nat * @closure Z nat)) by (vm_compute; reflexivity).
    intros e c ?%elem_of_nil. done.
  - replace (threads σ) with [@Thread Z nat Return [] None; Thread Return [] None]
      by (vm_compute; reflexivity).
    intros th [->|[->|?%elem_of_nil]%elem_of_cons]%elem_of_cons; done.
Defined.

Lemma delivery_under_way_completes_witness :
  let σ0 := scenario quiet [UOnEvent 0 (ValueOk 5%Z); UMute 0] in
  let σ2 := after (run 0 4 ++ [Dispatch 0] ++ run 1 2 ++ [Run 0]) σ0 in
  ∃ o σ3, heap σ2 !! 1%positive = Some o ∧ muted_ o = false ∧
          owner (mutex_ o) = Some 1 ∧
          run_thread 1 σ2 = Next σ3 ∧
          log σ3 = log σ2 ++ [EvDelegate 1 1%positive (ValueOk 5%Z)].
Proof.
  intros σ0 σ2.
  apply (delivery_under_way_completes σ0
           (run 0 4 ++ [Dispatch 0] ++ run 1 2)
           (after (run 0 4 ++ [Dispatch 0] ++ run 1 2) σ0)
           [Run 0] σ2 1
           (Thread (DelegateOnEvent 1%positive (ValueOk 5%Z)
                      (Unlock 1%positive (DropClosure Return)))
              [] (Some (Closure 1%positive (ValueOk 5%Z))))
           1%positive (ValueOk 5%Z) (Unlock 1%positive (DropClosure Return)));
    try (vm_compute; reflexivity).
  repeat constructor. discriminate.
Defined.

Lemma muted_event_is_inert_witness :
  let σ := after (run 0 5) (scenario quiet [UMute 0; UOnEvent 0 (ValueOk 5%Z)]) in
  let th := Thread (AsyncEventListener_OnEvent 1%positive (ValueOk 5%Z) Return) [] None in
  exec (run 0 3 ++ [Dispatch (length (pending σ))]
          ++ run (length (threads σ)) 4) σ
  = Next (State (heap σ) (vars σ) (pending σ)
            (<[0 := goto th Return]> (threads σ) ++ [Thread Return [] None])
            (log σ)).
Proof.
  intros σ th.
  apply (muted_event_is_inert σ 0 th 1%positive (ValueOk 5%Z) Return
           (Listener 0 (EventListener_Create quiet) (Mutex None 0) true (Some 1)) 0);
    vm_compute; reflexivity.
Defined.

Lemma task_delivers_at_most_once_witness :
  calls_by 1
    (log (after (run 0 4 ++ [Dispatch 0] ++ run 1 6 ++ run 0 8
                   ++ [Dispatch 0] ++ run 2 4)
            (scenario quiet [UOnEvent 0 (ValueOk 5%Z); UMute 0;
                             UOnEvent 0 (ValueOk 6%Z)]))) ≤ 1.
Proof.
  apply (task_delivers_at_most_once
           (scenario quiet [UOnEvent 0 (ValueOk 5%Z); UMute 0;
                            UOnEvent 0 (ValueOk 6%Z)])
           (run 0 4 ++ [Dispatch 0] ++ run 1 6 ++ run 0 8
              ++ [Dispatch 0] ++ run 2 4));
    vm_compute; reflexivity.
Defined.

Lemma serial_delivery_in_order_witness :
  let vs := [ValueOk 5%Z; StatusError 14; ValueOk 6%Z] in
  let σ := after (run 0 12)
             (scenario quiet [UOnEvent 0 (ValueOk 5%Z); UOnEvent 0 (StatusError 14);
                              UOnEvent 0 (ValueOk 6%Z)]) in
  ∃ σ' o', exec (serial (length (threads σ)) (length vs)) σ = Next σ' ∧
           delivered 1%positive (log σ') = delivered 1%positive (log σ) ++ vs ∧
           pending σ' = [] ∧
           heap σ' !! 1%positive = Some o' ∧ use_count o' = Some 1 ∧
           muted_ o' = false.
Proof.
  intros vs σ.
  apply (serial_delivery_in_order 1%positive 0 quiet vs σ
           (Listener 0 (EventListener_Create quiet) (Mutex None 0) false (Some 4)) 0);
    vm_compute; reflexivity.
Defined.

Lemma callback_called_under_lock_unmuted_witness :
  let σ := after (run 0 4 ++ [Dispatch 0] ++ run 1 3)
             (scenario quiet [UOnEvent 0 (StatusError 14)]) in
  ∃ th c o, threads σ !! 1 = Some th ∧ job th = Some c ∧
            maybe_value c = StatusError 14 ∧
            heap σ !! shared_this c = Some o ∧
            delegate_ o = CallbackEventListener quiet ∧
            owner (mutex_ o) = Some 1 ∧ muted_ o = false.
Proof.
  intros σ.
  apply (callback_called_under_lock_unmuted
           (scenario quiet [UOnEvent 0 (StatusError 14)])
           (run 0 4 ++ [Dispatch 0] ++ run 1 3) σ (Run 1) (after [Run 1] σ)
           1 quiet (StatusError 14));
    vm_compute; reflexivity.
Defined.
